(** * validate_email_links.py: the mailto-link validator of McKenzie Studios

    A shallow embedding of [src/validate_email_links.py] and the properties
    of its link extractor ([EmailLinkParser]) and of its report generator
    ([main]).

    Python strings are sequences of Unicode code points: a character is an
    [N], a string a [list N].  The markup scanner ([html.parser.HTMLParser])
    and the regular-expression engine ([re]) belong to the Python standard
    library; the first is represented by the stream of handler calls it
    makes, the second by a matcher for the constructs the three patterns of
    the script use. *)

From Stdlib Require Import String Ascii NArith List Bool Lia DecimalString.
From stdpp Require Import base option list gmap.
Import ListNotations.

Local Open Scope N_scope.
Local Open Scope list_scope.

(** ** Strings *)

Module Str.

Abbreviation char := N (only parsing).
Abbreviation str := (list N) (only parsing).

(** Code point of an ASCII character, and the string of an ASCII literal. *)
Definition ord (a : ascii) : char := N_of_ascii a.
Definition lit (s : string) : str := map N_of_ascii (list_ascii_of_string s).

(** The line feed, [\n]. *)
Definition newline : char := 10.

Definition in_range (lo hi c : char) : bool := (lo <=? c) && (c <=? hi).

(** [str.isspace] on one character, which is also the class [\s] of a
    [str] pattern: the ASCII white space 0x09-0x0D, 0x1C-0x1F and 0x20, and
    the other characters Unicode marks as white space. *)
Definition isspace (c : char) : bool :=
  in_range 9 13 c || in_range 28 32 c || (c =? 133) || (c =? 160)
  || (c =? 5760) || in_range 8192 8202 c || (c =? 8232) || (c =? 8233)
  || (c =? 8239) || (c =? 8287) || (c =? 12288).

Fixpoint lstrip (s : str) : str :=
  match s with
  | c :: s' => if isspace c then lstrip s' else s
  | [] => []
  end.

Definition rstrip (s : str) : str := rev (lstrip (rev s)).

(** [s.strip()] *)
Definition strip (s : str) : str := rstrip (lstrip s).

(** [s.startswith(p)] *)
Definition startswith (s p : str) : bool := bool_decide (p `prefix_of` s).

(** [c in s] for a one-character [c]. *)
Definition contains_char (c : char) (s : str) : bool := bool_decide (c ∈ s).

(** [sub in s]: some tail of [s] starts with [sub]. *)
Fixpoint contains (sub s : str) : bool :=
  startswith s sub ||
  match s with
  | [] => false
  | _ :: s' => contains sub s'
  end.

(** [s.split(sep)] for a one-character separator: the maximal pieces
    between the occurrences of [sep], in order; never an empty list. *)
Fixpoint split (sep : char) (s : str) : list str :=
  match s with
  | [] => [[]]
  | c :: s' =>
      if c =? sep then [] :: split sep s'
      else match split sep s' with
           | piece :: pieces => (c :: piece) :: pieces
           | [] => [[c]]
           end
  end.

(** [s.replace(old, '')]: every occurrence of [old] is removed, scanning
    from the left, the occurrences not overlapping.  [skip] counts the
    characters of an occurrence that are still to be dropped. *)
Fixpoint remove_from (old : str) (skip : nat) (s : str) : str :=
  match s with
  | [] => []
  | c :: s' =>
      match skip with
      | S k => remove_from old k s'
      | O =>
          if startswith s old
          then match old with
               | [] => c :: remove_from old O s'
               | _ :: old' => remove_from old (length old') s'
               end
          else c :: remove_from old O s'
      end
  end.

Definition remove_all (old s : str) : str := remove_from old O s.

End Str.
Import Str.

(** ** Regular expressions

    The patterns of the script are built from character classes,
    concatenation and repetition.  [Matches r s] says that [r] matches the
    whole of [s]; [fullmatch] decides it by derivatives. *)

Module Regex.

Inductive regex : Type :=
| Never
| Eps
| Class (p : N -> bool)
| Seq (r1 r2 : regex)
| Alt (r1 r2 : regex)
| Star (r : regex).

(** [r+] and [r{2,}] *)
Definition Plus (r : regex) : regex := Seq r (Star r).
Definition AtLeast2 (r : regex) : regex := Seq r (Seq r (Star r)).

(** A literal character and a literal string. *)
Definition Chr (c : N) : regex := Class (N.eqb c).
Definition Lit (s : list N) : regex := foldr (fun c r => Seq (Chr c) r) Eps s.

Inductive Matches : regex -> list N -> Prop :=
| MEps : Matches Eps []
| MClass p c : p c = true -> Matches (Class p) [c]
| MSeq r1 r2 s1 s2 : Matches r1 s1 -> Matches r2 s2 -> Matches (Seq r1 r2) (s1 ++ s2)
| MAltL r1 r2 s : Matches r1 s -> Matches (Alt r1 r2) s
| MAltR r1 r2 s : Matches r2 s -> Matches (Alt r1 r2) s
| MStar0 r : Matches (Star r) []
| MStarS r s1 s2 : Matches r s1 -> Matches (Star r) s2 -> Matches (Star r) (s1 ++ s2).

Fixpoint nullable (r : regex) : bool :=
  match r with
  | Never => false
  | Eps => true
  | Class _ => false
  | Seq r1 r2 => nullable r1 && nullable r2
  | Alt r1 r2 => nullable r1 || nullable r2
  | Star _ => true
  end.

Fixpoint deriv (c : N) (r : regex) : regex :=
  match r with
  | Never => Never
  | Eps => Never
  | Class p => if p c then Eps else Never
  | Seq r1 r2 =>
      if nullable r1 then Alt (Seq (deriv c r1) r2) (deriv c r2)
      else Seq (deriv c r1) r2
  | Alt r1 r2 => Alt (deriv c r1) (deriv c r2)
  | Star r1 => Seq (deriv c r1) (Star r1)
  end.

(** [re.fullmatch(r, s) is not None] *)
Fixpoint fullmatch (r : regex) (s : list N) : bool :=
  match s with
  | [] => nullable r
  | c :: s' => fullmatch (deriv c r) s'
  end.

(** Length of the longest prefix of [s] that [r] matches, if there is
    one. *)
Fixpoint longest_prefix (r : regex) (s : list N) : option nat :=
  match s with
  | [] => if nullable r then Some O else None
  | c :: s' =>
      match longest_prefix (deriv c r) s' with
      | Some n => Some (S n)
      | None => if nullable r then Some O else None
      end
  end.

(** [re.findall(r, s)] for a pattern that does not match the empty string
    and that matches at most one prefix of any string, which is the case
    of the two patterns searched in the document: the matches, from the
    left, each search starting where the previous match ended.  [skip]
    counts the characters of the last match that are still to be passed. *)
Fixpoint findall_from (r : regex) (skip : nat) (s : list N) : list (list N) :=
  match s with
  | [] => []
  | _ :: s' =>
      match skip with
      | S k => findall_from r k s'
      | O =>
          match longest_prefix r s with
          | Some (S n) => take (S n) s :: findall_from r n s'
          | _ => findall_from r O s'
          end
      end
  end.

Definition findall (r : regex) (s : list N) : list (list N) := findall_from r O s.

End Regex.
Import Regex.

(** ** The link extractor: [class EmailLinkParser(HTMLParser)]

    [HTMLParser.feed] scans the document and calls [handle_starttag],
    [handle_endtag] and [handle_data] in document order; an [event] is one
    such call with its arguments.  Tag and attribute names arrive in lower
    case, an attribute written without a value has the value [None], and
    [getpos()] is the position (line, counted from 1, and column) of the
    tag being handled. *)

Module Extractor.

Inductive event : Type :=
| StartTag (tag : str) (attrs : list (str * option str)) (getpos : positive * nat)
| EndTag (tag : str)
| Data (data : str).

(** The dict built for a link.  ['class'] holds what [attrs_dict.get]
    returns, a string or [None]. *)
Record LinkRecord : Type := {
  href : str;
  class : option str;
  text : str;
  line_num : positive
}.

(** Python dicts are objects: [current_link] and the entries of
    [email_links] are references to them.  [store] holds the dicts created
    so far, a reference being an index into it. *)
Record EmailLinkParser : Type := {
  store : list LinkRecord;
  email_links : list nat;
  current_link : option nat;
  in_link : bool
}.

Inductive exn : Type :=
| AttributeError.

Inductive result (A : Type) : Type :=
| OK (a : A)
| Raise (e : exn).
Arguments OK {A} a.
Arguments Raise {A} e.

(** [__init__] *)
Definition init : EmailLinkParser :=
  {| store := []; email_links := []; current_link := None; in_link := false |}.

(** [dict(attrs)]: a later pair replaces an earlier one with the same
    name. *)
Definition dict (attrs : list (str * option str)) : gmap (list N) (option (list N)) :=
  fold_left (fun m kv => <[kv.1 := kv.2]> m) attrs ∅.

Definition set_text (t : str) (l : LinkRecord) : LinkRecord :=
  {| href := href l; class := class l; text := t; line_num := line_num l |}.

(** [attrs_dict['href'].startswith] raises [AttributeError] when the value
    is [None]. *)
Definition handle_starttag (self : EmailLinkParser) (tag : str)
    (attrs : list (str * option str)) (getpos : positive * nat) : result EmailLinkParser :=
  if bool_decide (tag = lit "a") then
    let attrs_dict := dict attrs in
    match attrs_dict !! lit "href" with
    | None => OK self
    | Some None => Raise AttributeError
    | Some (Some h) =>
        if startswith h (lit "mailto:") then
          OK {| store := store self ++
                  [ {| href := h;
                       class := default (Some []) (attrs_dict !! lit "class");
                       text := [];
                       line_num := getpos.1 |} ];
                email_links := email_links self;
                current_link := Some (length (store self));
                in_link := true |}
        else OK self
    end
  else OK self.

(** [if self.current_link:] holds for every link dict, which has four
    keys, and fails for [None]. *)
Definition handle_endtag (self : EmailLinkParser) (tag : str) : EmailLinkParser :=
  if bool_decide (tag = lit "a") && in_link self then
    match current_link self with
    | Some r =>
        {| store := store self;
           email_links := email_links self ++ [r];
           current_link := None;
           in_link := false |}
    | None =>
        {| store := store self;
           email_links := email_links self;
           current_link := None;
           in_link := false |}
    end
  else self.

Definition handle_data (self : EmailLinkParser) (data : str) : EmailLinkParser :=
  if in_link self then
    match current_link self with
    | Some r =>
        {| store := alter (fun l => set_text (text l ++ strip data) l) r (store self);
           email_links := email_links self;
           current_link := current_link self;
           in_link := in_link self |}
    | None => self
    end
  else self.

Definition handle (self : EmailLinkParser) (e : event) : result EmailLinkParser :=
  match e with
  | StartTag tag attrs getpos => handle_starttag self tag attrs getpos
  | EndTag tag => OK (handle_endtag self tag)
  | Data data => OK (handle_data self data)
  end.

(** [parser.feed]: the handlers run in order; an exception ends the run. *)
Fixpoint feed (self : EmailLinkParser) (events : list event) : result EmailLinkParser :=
  match events with
  | [] => OK self
  | e :: events' =>
      match handle self e with
      | OK self' => feed self' events'
      | Raise x => Raise x
      end
  end.

Global Instance LinkRecord_inhabited : Inhabited LinkRecord :=
  populate {| href := []; class := None; text := []; line_num := 1%positive |}.

(** The dicts [parser.email_links] refers to, in order. *)
Definition links (self : EmailLinkParser) : list LinkRecord :=
  (fun r => store self !!! r) <$> email_links self.

End Extractor.
Import Extractor.

(** ** The checks and the report: [validate_email_format],
    [check_duplicate_tags] and [main] *)

Module Report.

Definition letter (c : char) : bool :=
  in_range (ord "a") (ord "z") c || in_range (ord "A") (ord "Z") c.
Definition digit (c : char) : bool := in_range (ord "0") (ord "9") c.

(** [[a-zA-Z0-9._%+-]] and [[a-zA-Z0-9.-]] *)
Definition local_char (c : char) : bool :=
  letter c || digit c || (c =? ord ".") || (c =? ord "_") || (c =? ord "%")
  || (c =? ord "+") || (c =? ord "-").
Definition domain_char (c : char) : bool :=
  letter c || digit c || (c =? ord ".") || (c =? ord "-").

(** The pattern of [validate_email_format] between [^] and [$]. *)
Definition email_pattern : regex :=
  Seq (Plus (Class local_char))
    (Seq (Chr (ord "@"))
       (Seq (Plus (Class domain_char))
          (Seq (Chr (ord ".")) (AtLeast2 (Class letter))))).

(** [re.match('^' + r + '$', s) is not None].  [re.match] looks for a match
    that starts at the beginning of [s]; [$], without [re.MULTILINE], holds
    at the end of [s] and also just before a newline that is the last
    character of [s]. *)
Definition match_caret_dollar (r : regex) (s : str) : bool :=
  fullmatch r s ||
  match rev s with
  | c :: s' => (c =? newline) && fullmatch r (rev s')
  | [] => false
  end.

Definition validate_email_format (email : str) : bool :=
  match_caret_dollar email_pattern email.

(** [</a>\s*</a>] *)
Definition duplicate_pattern : regex :=
  Seq (Lit (lit "</a>")) (Seq (Star (Class isspace)) (Lit (lit "</a>"))).

Definition check_duplicate_tags (html_content : str) : list str :=
  findall duplicate_pattern html_content.

(** [mailto:\s+[^\s]] *)
Definition malformed_pattern : regex :=
  Seq (Lit (lit "mailto:"))
    (Seq (Plus (Class isspace)) (Class (fun c => negb (isspace c)))).

(** [str(n)] for the integers the report prints. *)
Definition str_of_nat (n : nat) : str := lit (NilEmpty.string_of_uint (Nat.to_uint n)).
Definition str_of_pos (p : positive) : str := lit (NilEmpty.string_of_uint (Pos.to_uint p)).

(** How an f-string shows [link['class']], and [bool(link['class'])]. *)
Definition format_class (c : option str) : str :=
  match c with
  | Some s => s
  | None => lit "None"
  end.
Definition bool_class (c : option str) : bool :=
  match c with
  | Some (_ :: _) => true
  | _ => false
  end.

Definition PASS : str := 10003 :: lit " PASS".
Definition FAIL : str := 10007 :: lit " FAIL".
Definition WARN : str := 9888 :: lit " WARN".
Definition INFO : str := 9888 :: lit " INFO".

(** [email = link['href'].replace('mailto:', '')] *)
Definition email_of (link : LinkRecord) : str := remove_all (lit "mailto:") (href link).

(** [email.split('@')[1] if '@' in email else ''] *)
Definition domain_of (email : str) : str :=
  if contains_char (ord "@") email then nth 1 (split (ord "@") email) [] else [].

Definition is_mckenzie (email : str) : bool :=
  contains (lit "mckenziestudios") (domain_of email).

(** The body of the loop over the links: the lines it prints and the new
    value of [all_tests_passed]. *)
Definition check_link (i : nat) (link : LinkRecord) (all_tests_passed : bool)
    : list str * bool :=
  let email := email_of link in
  let is_valid := validate_email_format email in
  let all_tests_passed := if negb is_valid then false else all_tests_passed in
  let text_matches := bool_decide (text link = email) in
  let all_tests_passed := if negb text_matches then false else all_tests_passed in
  let has_class := bool_class (class link) in
  let domain := domain_of email in
  ([ lit "Link #" ++ str_of_nat i;
     repeat (ord "-") 40;
     lit "Location: index.html:~" ++ str_of_pos (line_num link);
     lit "Href: " ++ href link;
     lit "Class: " ++ format_class (class link);
     lit "Link Text: " ++ text link;
     [];
     lit "  " ++ (if is_valid then PASS else FAIL) ++ lit " - Email format validation";
     lit "  " ++ (if text_matches then PASS else FAIL)
       ++ lit " - Link text matches email address" ]
   ++ (if negb text_matches
       then [ lit "           Expected: " ++ email ++ lit ", Got: " ++ text link ]
       else [])
   ++ [ lit "  " ++ (if has_class then PASS else WARN) ++ lit " - Has CSS class for styling";
        lit "  " ++ (if is_mckenzie email then PASS else INFO) ++ lit " - Domain: " ++ domain;
        [] ],
   all_tests_passed).

(** [for i, link in enumerate(parser.email_links, 1)] *)
Fixpoint check_links (i : nat) (links : list LinkRecord) (all_tests_passed : bool)
    : list str * bool :=
  match links with
  | [] => ([], all_tests_passed)
  | link :: links' =>
      let '(out, all_tests_passed) := check_link i link all_tests_passed in
      let '(out', all_tests_passed) := check_links (S i) links' all_tests_passed in
      (out ++ out', all_tests_passed)
  end.

Section Main.

(** The text Python's [str] gives for a list of strings, which the
    duplicate-tag line prints. *)
Variable str_of_list : list str -> str.

(** [main] from the first [print] after parsing on: the lines printed and
    the final [all_tests_passed]. *)
Definition report (html_content : str) (links : list LinkRecord) : list str * bool :=
  let all_tests_passed := true in
  let '(out_links, all_tests_passed) := check_links 1 links all_tests_passed in
  let duplicate_tags := check_duplicate_tags html_content in
  let '(out_dup, all_tests_passed) :=
    match duplicate_tags with
    | _ :: _ =>
        ([ lit "  " ++ FAIL ++ lit " - Found " ++ str_of_nat (length duplicate_tags)
             ++ lit " duplicate closing tag(s): " ++ str_of_list duplicate_tags ],
         false)
    | [] => ([ lit "  " ++ PASS ++ lit " - No duplicate closing tags found" ],
             all_tests_passed)
    end in
  let malformed := findall malformed_pattern html_content in
  let '(out_mal, all_tests_passed) :=
    match malformed with
    | _ :: _ =>
        ([ lit "  " ++ FAIL ++ lit " - Found malformed mailto links with spaces" ], false)
    | [] => ([ lit "  " ++ PASS ++ lit " - No malformed mailto links" ], all_tests_passed)
    end in
  ([ 128231 :: lit " Found " ++ str_of_nat (length links) ++ lit " email link(s)"; [] ]
   ++ out_links
   ++ [ lit "Additional Validation"; repeat (ord "-") 40 ]
   ++ out_dup ++ out_mal
   ++ [ []; repeat (ord "=") 60;
        (if all_tests_passed
         then 10003 :: lit " All tests PASSED - Email links are properly configured"
         else 10007 :: lit " Some tests FAILED - Please review issues above");
        repeat (ord "=") 60; [];
        lit "Manual Testing Instructions:";
        lit "1. Open index.html in a web browser";
        lit "2. Navigate to the Contact section";
        lit "3. Click the email link: chat@mckenziestudios.ai";
        lit "4. Verify your email client opens with the correct recipient";
        [];
        lit "Alternatively, open test_email_links.html for interactive testing" ],
   all_tests_passed).

(** [main], given the text read from the file and the handler calls the
    scanner makes for it.  The banner is printed before the document is
    parsed. *)
Definition main (html_content : str) (events : list event) : result (list str * bool) :=
  let banner :=
    [ repeat (ord "=") 60; lit "McKenzie Studios - Email Link Validation Report";
      repeat (ord "=") 60; [] ] in
  match feed init events with
  | OK parser =>
      let '(out, all_tests_passed) := report html_content (links parser) in
      OK (banner ++ out, all_tests_passed)
  | Raise x => Raise x
  end.

End Main.

End Report.
Import Report.

(** ** The specification's wording

    What the specification says the checks compute, written from its
    sentences, to be compared with the functions above. *)

Module Spec.

(** "one-or-more of [[A-Za-z0-9._%+-]], then [@], then one-or-more of
    [[A-Za-z0-9.-]], then a literal [.], then two-or-more letters", the
    entire string. *)
Definition email_shape (s : str) : Prop :=
  exists l d t : str,
    s = l ++ ord "@" :: d ++ ord "." :: t /\
    l <> [] /\ Forall (fun c => local_char c = true) l /\
    d <> [] /\ Forall (fun c => domain_char c = true) d /\
    (2 <= length t)%nat /\ Forall (fun c => letter c = true) t.

(** "the portion after [the first @] (empty string if no @ present)" *)
Fixpoint after_first (sep : char) (s : str) : str :=
  match s with
  | [] => []
  | c :: s' => if c =? sep then s' else after_first sep s'
  end.

(** The portion before the first [sep], all of [s] if there is none. *)
Fixpoint before_first (sep : char) (s : str) : str :=
  match s with
  | [] => []
  | c :: s' => if c =? sep then [] else c :: before_first sep s'
  end.

(** "the substring after the [mailto:] prefix" *)
Definition after_prefix (p s : str) : str := drop (length p) s.

(** The value the tag gives attribute [k]: that of its last occurrence. *)
Fixpoint attr_value (attrs : list (str * option str)) (k : str) : option (option str) :=
  match attrs with
  | [] => None
  | (k', v) :: attrs' =>
      match attr_value attrs' k with
      | Some v' => Some v'
      | None => if bool_decide (k' = k) then Some v else None
      end
  end.

(** An event that is neither a start tag nor an end tag of an anchor. *)
Definition not_anchor (e : event) : Prop :=
  match e with
  | StartTag tag _ _ => tag <> lit "a"
  | EndTag tag => tag <> lit "a"
  | Data _ => True
  end.

(** The text the data events of [events] add to an open link. *)
Fixpoint data_text (events : list event) : str :=
  match events with
  | [] => []
  | Data data :: events' => strip data ++ data_text events'
  | _ :: events' => data_text events'
  end.

(** [l] is strictly increasing. *)
Definition increasing (l : list nat) : Prop :=
  forall i j x y, (i < j)%nat -> l !! i = Some x -> l !! j = Some y -> (x < y)%nat.

End Spec.
Import Spec.

Local Close Scope N_scope.

(** ** The states of the extractor *)

(** What holds of every state [feed] reaches from [init]: the references
    are to dicts of the store, [email_links] is in the order in which the
    dicts were created, and the dict [current_link] refers to is newer
    than all of them. *)
Record wf (self : EmailLinkParser) : Prop := {
  wf_links : forall x, x ∈ email_links self -> x < length (store self);
  wf_current : forall r, current_link self = Some r ->
    r < length (store self) /\ forall x, x ∈ email_links self -> x < r;
  wf_increasing : increasing (email_links self);
  wf_flag : in_link self = true <-> is_Some (current_link self)
}.

(** The state after a start tag has opened a link with href [h]. *)
Definition opened (self : EmailLinkParser) (h : str) (attrs : list (str * option str))
    (getpos : positive * nat) : EmailLinkParser :=
  {| store := store self ++
       [ {| href := h;
            class := default (Some []) (dict attrs !! lit "class");
            text := [];
            line_num := getpos.1 |} ];
     email_links := email_links self;
     current_link := Some (length (store self));
     in_link := true |}.

(** Once [current_link] has moved off the dict [r], no handler makes it
    current again, so no end tag appends it. *)
Definition lost (r : nat) (self : EmailLinkParser) : Prop :=
  r < length (store self) /\ (r ∉ email_links self) /\ current_link self <> Some r.

(** The dict [rec] was opened by the [i]-th handler call of [events]. *)
Definition opened_by (events : list event) (i : nat) (rec : LinkRecord) : Prop :=
  exists attrs getpos,
    events !! i = Some (StartTag (lit "a") attrs getpos) /\
    dict attrs !! lit "href" = Some (Some (href rec)) /\
    class rec = default (Some []) (dict attrs !! lit "class") /\
    line_num rec = getpos.1.

(** The dicts of the store were opened, in the order of the store, by
    handler calls of [events]. *)
Definition traced (events : list event) (self : EmailLinkParser) : Prop :=
  exists orig : list nat,
    Forall2 (opened_by events) orig (store self) /\
    increasing orig /\
    forall i, i ∈ orig -> i < length events.

(** The outcomes of the two per-link checks and of the two checks of the
    document that [main] reports as FAIL. *)
Definition format_ok (link : LinkRecord) : bool := validate_email_format (email_of link).
Definition text_ok (link : LinkRecord) : bool := bool_decide (text link = email_of link).
Definition no_duplicate_tags (html_content : str) : bool :=
  bool_decide (check_duplicate_tags html_content = []).
Definition no_malformed_mailto (html_content : str) : bool :=
  bool_decide (findall malformed_pattern html_content = []).

Definition set_class (c : option str) (l : LinkRecord) : LinkRecord :=
  {| href := href l; class := c; text := text l; line_num := line_num l |}.


(** ** Kinds of events *)

(** A start tag that opens a link: an [a] whose href starts with
    [mailto:]. *)
Definition is_mailto_start (e : event) : bool :=
  match e with
  | StartTag tag attrs _ =>
      bool_decide (tag = lit "a") &&
      match dict attrs !! lit "href" with
      | Some (Some h) => startswith h (lit "mailto:")
      | _ => false
      end
  | _ => false
  end.

(** A start tag of an [a] whose href has no value. *)
Definition valueless_href (e : event) : bool :=
  match e with
  | StartTag tag attrs _ =>
      bool_decide (tag = lit "a") && bool_decide (dict attrs !! lit "href" = Some None)
  | _ => false
  end.

(** An end tag of an [a]. *)
Definition is_anchor_end (e : event) : bool :=
  match e with
  | EndTag tag => bool_decide (tag = lit "a")
  | _ => false
  end.

(** [s] neither starts nor ends with white space. *)
Definition no_edge_space (s : str) : Prop :=
  (forall c, head s = Some c -> isspace c = false) /\
  (forall c, last s = Some c -> isspace c = false).

(** ** Kinds of lines of the report *)

(** The first character of [l] is [c]. *)
Definition first_is (c : N) (l : str) : bool :=
  match l with
  | a :: _ => N.eqb a c
  | [] => false
  end.

(** [l] starts with two spaces and the glyph of FAIL: a check line that
    reports a failure. *)
Definition is_fail_line (l : str) : bool :=
  match l with
  | a :: b :: c :: _ => N.eqb a (ord " ") && N.eqb b (ord " ") && N.eqb c 10007
  | _ => false
  end.

(** [l] starts with three spaces, as only the line of the expected and
    the actual text does. *)
Definition is_indented_line (l : str) : bool :=
  match l with
  | a :: b :: c :: _ => N.eqb a (ord " ") && N.eqb b (ord " ") && N.eqb c (ord " ")
  | _ => false
  end.

(** The two closing lines [main] chooses between. *)
Definition all_passed_line : str :=
  10003%N :: lit " All tests PASSED - Email links are properly configured".
Definition some_failed_line : str :=
  10007%N :: lit " Some tests FAILED - Please review issues above".

(** * Properties *)


(** ** The matcher decides [Matches] *)

Section RegexFacts.

Lemma Matches_nil_nullable r : Matches r [] -> nullable r = true.
Proof.
  intros H. remember [] as s eqn:Hs. induction H; simpl; auto; try discriminate.
  - apply app_eq_nil in Hs as [-> ->]. rewrite IHMatches1, IHMatches2; auto.
  - rewrite IHMatches; auto.
  - rewrite IHMatches; auto using orb_true_r.
Qed.

Lemma nullable_Matches_nil r : nullable r = true -> Matches r [].
Proof.
  induction r; simpl; intros H; try discriminate.
  - constructor.
  - apply andb_true_iff in H as [H1 H2].
    change (@nil N) with (@nil N ++ []). constructor; auto.
  - apply orb_true_iff in H as [H|H]; [apply MAltL | apply MAltR]; auto.
  - constructor.
Qed.

Lemma Matches_Star_cons r c s :
  Matches (Star r) (c :: s) ->
  exists s1 s2, s = s1 ++ s2 /\ Matches r (c :: s1) /\ Matches (Star r) s2.
Proof.
  intros H. remember (Star r) as r' eqn:Hr. remember (c :: s) as cs eqn:Hcs.
  revert c s Hcs. induction H; intros c' s' Hcs; try discriminate.
  inversion Hr; subst r0. destruct s1 as [|c1 s1]; simpl in Hcs.
  - apply IHMatches2; auto.
  - inversion Hcs; subst. eauto.
Qed.

Lemma Matches_Class p s : Matches (Class p) s <-> exists c, s = [c] /\ p c = true.
Proof.
  split.
  - intros H; inversion H; subst; eauto.
  - intros (c & -> & H). constructor; auto.
Qed.

Lemma Matches_Seq r1 r2 s :
  Matches (Seq r1 r2) s <-> exists s1 s2, s = s1 ++ s2 /\ Matches r1 s1 /\ Matches r2 s2.
Proof.
  split.
  - intros H; inversion H; subst; eauto.
  - intros (s1 & s2 & -> & H1 & H2). constructor; auto.
Qed.

Lemma deriv_sound c r s : Matches (deriv c r) s -> Matches r (c :: s).
Proof.
  revert s. induction r; simpl; intros s H.
  - inversion H.
  - inversion H.
  - destruct (p c) eqn:Hp; inversion H; subst. constructor; auto.
  - destruct (nullable r1) eqn:Hn.
    + inversion H; subst.
      * inversion H3; subst. change (c :: s1 ++ s2) with ((c :: s1) ++ s2).
        constructor; auto.
      * change (c :: s) with ([] ++ c :: s).
        constructor; auto using nullable_Matches_nil.
    + inversion H; subst. change (c :: s1 ++ s2) with ((c :: s1) ++ s2).
      constructor; auto.
  - inversion H; subst; [apply MAltL | apply MAltR]; auto.
  - inversion H; subst. change (c :: s1 ++ s2) with ((c :: s1) ++ s2).
    constructor; auto.
Qed.

Lemma deriv_complete c r s : Matches r (c :: s) -> Matches (deriv c r) s.
Proof.
  revert s. induction r; simpl; intros s H.
  - inversion H.
  - inversion H.
  - apply Matches_Class in H as (c' & Hs & Hp). inversion Hs; subst.
    rewrite Hp. constructor.
  - apply Matches_Seq in H as (s1 & s2 & Hs & M1 & M2).
    destruct s1 as [|c1 s1]; simpl in Hs.
    + subst s2. rewrite (Matches_nil_nullable _ M1). apply MAltR; auto.
    + inversion Hs; subst.
      destruct (nullable r1); [apply MAltL|]; constructor; auto.
  - inversion H; subst; [apply MAltL | apply MAltR]; auto.
  - apply Matches_Star_cons in H as (s1 & s2 & -> & H1 & H2).
    constructor; auto.
Qed.

Lemma fullmatch_Matches r s : fullmatch r s = true <-> Matches r s.
Proof.
  revert r. induction s as [|c s IH]; intros r; simpl.
  - split; auto using Matches_nil_nullable, nullable_Matches_nil.
  - rewrite IH. split; auto using deriv_sound, deriv_complete.
Qed.

Lemma Matches_Chr c s : Matches (Chr c) s <-> s = [c].
Proof.
  unfold Chr. rewrite Matches_Class. split.
  - intros (c' & -> & H). apply N.eqb_eq in H. congruence.
  - intros ->. exists c. split; auto. apply N.eqb_refl.
Qed.

Lemma Matches_Star_Class p s :
  Matches (Star (Class p)) s <-> Forall (fun c => p c = true) s.
Proof.
  split.
  - intros H. remember (Star (Class p)) as r eqn:Hr.
    induction H; try discriminate; auto.
    inversion Hr; subst. inversion H; subst. simpl. constructor; auto.
  - induction 1 as [|c s Hc _ IH]; [constructor|].
    change (c :: s) with ([c] ++ s). constructor; auto. constructor; auto.
Qed.

Lemma Matches_Plus_Class p s :
  Matches (Plus (Class p)) s <-> s <> [] /\ Forall (fun c => p c = true) s.
Proof.
  unfold Plus. rewrite Matches_Seq. split.
  - intros (s1 & s2 & -> & H1 & H2). apply Matches_Class in H1 as (c & -> & Hc).
    apply Matches_Star_Class in H2. split; [discriminate|]. constructor; auto.
  - intros [Hne H]. destruct s as [|c s]; [congruence|].
    inversion H; subst. exists [c], s. split; auto. split.
    + apply Matches_Class; eauto.
    + apply Matches_Star_Class; auto.
Qed.

Lemma Matches_AtLeast2_Class p s :
  Matches (AtLeast2 (Class p)) s <-> (2 <= length s)%nat /\ Forall (fun c => p c = true) s.
Proof.
  unfold AtLeast2. rewrite Matches_Seq. split.
  - intros (s1 & s2 & -> & H1 & H2). apply Matches_Class in H1 as (c & -> & Hc).
    apply Matches_Seq in H2 as (s3 & s4 & -> & H3 & H4).
    apply Matches_Class in H3 as (c' & -> & Hc'). apply Matches_Star_Class in H4.
    simpl. split; [lia|]. repeat constructor; auto.
  - intros [Hlen H]. destruct s as [|c [|c' s]]; simpl in Hlen; try lia.
    inversion H as [|? ? Hc H']; subst. inversion H' as [|? ? Hc' H'']; subst.
    exists [c], (c' :: s). split; auto. split; [apply Matches_Class; eauto|].
    apply Matches_Seq. exists [c'], s. split; auto.
    split; [apply Matches_Class; eauto | apply Matches_Star_Class; auto].
Qed.

End RegexFacts.

(** ** The format check *)

Lemma match_caret_dollar_iff r s :
  match_caret_dollar r s = true <->
  Matches r s \/ exists s', s = s' ++ [newline] /\ Matches r s'.
Proof.
  unfold match_caret_dollar. rewrite orb_true_iff, fullmatch_Matches.
  split; (intros [H|H]; [left; exact H | right]).
  - destruct (rev s) as [|c s'] eqn:Hr; [discriminate|].
    apply andb_true_iff in H as [Hc H]. apply N.eqb_eq in Hc. subst c.
    apply fullmatch_Matches in H. exists (rev s'). split; auto.
    rewrite <- (rev_involutive s), Hr. reflexivity.
  - destruct H as (s' & -> & H). rewrite rev_app_distr. simpl.
    rewrite rev_involutive. apply fullmatch_Matches. exact H.
Qed.

Lemma email_pattern_shape s : Matches email_pattern s <-> email_shape s.
Proof.
  unfold email_pattern, email_shape. rewrite Matches_Seq. split.
  - intros (l & s1 & -> & Hl & H). apply Matches_Plus_Class in Hl as [Hl1 Hl2].
    apply Matches_Seq in H as (a & s2 & -> & Ha & H). apply Matches_Chr in Ha as ->.
    apply Matches_Seq in H as (d & s3 & -> & Hd & H).
    apply Matches_Plus_Class in Hd as [Hd1 Hd2].
    apply Matches_Seq in H as (p & t & -> & Hp & Ht). apply Matches_Chr in Hp as ->.
    apply Matches_AtLeast2_Class in Ht as [Ht1 Ht2].
    exists l, d, t. repeat split; auto.
  - intros (l & d & t & -> & Hl1 & Hl2 & Hd1 & Hd2 & Ht1 & Ht2).
    exists l, (ord "@" :: d ++ ord "." :: t). split; auto.
    split; [apply Matches_Plus_Class; auto|].
    apply Matches_Seq. exists [ord "@"], (d ++ ord "." :: t). split; auto.
    split; [apply Matches_Chr; auto|].
    apply Matches_Seq. exists d, (ord "." :: t). split; auto.
    split; [apply Matches_Plus_Class; auto|].
    apply Matches_Seq. exists [ord "."], t. split; auto.
    split; [apply Matches_Chr; auto | apply Matches_AtLeast2_Class; auto].
Qed.

(** X16.  What [validate_email_format] accepts: the strings of the shape the
    specification describes, and those strings followed by one newline. *)
Lemma validate_email_format_iff email :
  validate_email_format email = true <->
  email_shape email \/ exists s, email = s ++ [newline] /\ email_shape s.
Proof.
  unfold validate_email_format. rewrite match_caret_dollar_iff, email_pattern_shape.
  split; (intros [H|(s & -> & H)]; [left; auto | right; exists s; split; auto]);
    apply email_pattern_shape; auto.
Qed.

Lemma email_shape_decide s : email_shape s <-> fullmatch email_pattern s = true.
Proof. rewrite fullmatch_Matches, email_pattern_shape. reflexivity. Qed.

Lemma validate_email_format_examples :
  validate_email_format (lit "chat@mckenziestudios.ai") = true /\
  validate_email_format (lit "chat@mckenziestudios") = false /\
  validate_email_format (lit "chat @mckenziestudios.ai") = false.
Proof. repeat split; vm_compute; reflexivity. Qed.

(** C2 (the code departs from it).  The format check is to pass only when
    the entire string has the shape local part, [@], domain, [.], two or
    more letters.  At ["a@b.cc"] followed by a newline
    [validate_email_format] answers [true] although the string does not
    have that shape: [$] also holds before a final newline. *)
Theorem validate_email_format_accepts_trailing_newline :
  validate_email_format (lit "a@b.cc" ++ [newline]) = true /\
  ~ email_shape (lit "a@b.cc" ++ [newline]).
Proof.
  split; [vm_compute; reflexivity|].
  rewrite email_shape_decide. vm_compute. discriminate.
Qed.

(** ** The states [feed] reaches *)


Section ExtractorFacts.

Lemma dict_fold_lookup (attrs : list (str * option str))
    (m : gmap str (option str)) (k : str) :
  fold_left (fun m kv => <[kv.1 := kv.2]> m) attrs m !! k =
  match attr_value attrs k with
  | Some v => Some v
  | None => m !! k
  end.
Proof.
  revert m. induction attrs as [|[k' v] attrs IH]; intros m; simpl; [reflexivity|].
  rewrite IH. destruct (attr_value attrs k); [reflexivity|].
  rewrite lookup_insert. case_bool_decide; case_decide; simpl; congruence.
Qed.

Lemma dict_lookup (attrs : list (str * option str)) (k : str) :
  dict attrs !! k = attr_value attrs k.
Proof.
  unfold dict. rewrite dict_fold_lookup, lookup_empty.
  destruct (attr_value attrs k); reflexivity.
Qed.

Lemma increasing_nil : increasing [].
Proof. intros i j x y _ H. rewrite lookup_nil in H. discriminate. Qed.

Lemma increasing_snoc l r :
  increasing l -> (forall x, x ∈ l -> x < r) -> increasing (l ++ [r]).
Proof.
  intros Hl Hr i j x y Hij Hi Hj.
  apply lookup_snoc_Some in Hj as [[Hj1 Hj2]|[Hj1 Hj2]].
  - rewrite lookup_app_l in Hi by lia. exact (Hl i j x y Hij Hi Hj2).
  - subst. rewrite lookup_app_l in Hi by lia.
    apply Hr. eapply list_elem_of_lookup_2; eauto.
Qed.

Lemma wf_init : wf init.
Proof.
  split; simpl.
  - intros x H. inversion H.
  - discriminate.
  - apply increasing_nil.
  - split; [discriminate | intros [? ?]; discriminate].
Qed.

Lemma handle_starttag_cases self tag attrs getpos :
  handle_starttag self tag attrs getpos = OK self \/
  handle_starttag self tag attrs getpos = Raise AttributeError \/
  exists h,
    tag = lit "a" /\ dict attrs !! lit "href" = Some (Some h) /\
    startswith h (lit "mailto:") = true /\
    handle_starttag self tag attrs getpos =
      OK {| store := store self ++
              [ {| href := h;
                   class := default (Some []) (dict attrs !! lit "class");
                   text := [];
                   line_num := getpos.1 |} ];
            email_links := email_links self;
            current_link := Some (length (store self));
            in_link := true |}.
Proof.
  unfold handle_starttag. case_bool_decide as Htag; [|auto].
  destruct (dict attrs !! lit "href") as [[h|]|] eqn:Hh; auto.
  destruct (startswith h (lit "mailto:")) eqn:Hm; auto.
  right; right. exists h. auto.
Qed.

Lemma wf_handle_starttag self tag attrs getpos self' :
  wf self -> handle_starttag self tag attrs getpos = OK self' -> wf self'.
Proof.
  intros Hwf H.
  destruct (handle_starttag_cases self tag attrs getpos) as [E|[E|(h & _ & _ & _ & E)]];
    rewrite E in H; inversion H; subst; auto.
  destruct Hwf as [H1 H2 H3 H4]. split; simpl.
  - intros x Hx. rewrite length_app. simpl. specialize (H1 x Hx). lia.
  - intros r Hr. inversion Hr; subst. rewrite length_app. simpl. split; [lia|auto].
  - auto.
  - split; eauto.
Qed.

Lemma wf_handle_endtag self tag : wf self -> wf (handle_endtag self tag).
Proof.
  intros Hwf. unfold handle_endtag.
  destruct (bool_decide (tag = lit "a") && in_link self); [|auto].
  destruct Hwf as [H1 H2 H3 H4].
  destruct (current_link self) as [r|] eqn:Hc; split; simpl; auto; try discriminate.
  - intros x Hx. apply elem_of_app in Hx as [Hx|Hx]; auto.
    apply list_elem_of_singleton in Hx as ->. apply (H2 r); auto.
  - apply increasing_snoc; auto. apply (H2 r); auto.
  - split; [discriminate | intros [? ?]; discriminate].
  - split; [discriminate | intros [? ?]; discriminate].
Qed.

Lemma wf_handle_data self data : wf self -> wf (handle_data self data).
Proof.
  intros Hwf. unfold handle_data.
  destruct (in_link self) eqn:Hin; [|auto].
  destruct (current_link self) as [r|] eqn:Hc; [|auto].
  destruct Hwf as [H1 H2 H3 H4]. split; simpl; rewrite ?length_alter; auto.
  - intros r0 Hr. inversion Hr; subst r0. apply H2; auto.
  - split; eauto.
Qed.

Lemma wf_handle self e self' : wf self -> handle self e = OK self' -> wf self'.
Proof.
  destruct e; simpl; intros Hwf H.
  - eapply wf_handle_starttag; eauto.
  - inversion H; subst. apply wf_handle_endtag; auto.
  - inversion H; subst. apply wf_handle_data; auto.
Qed.

Lemma feed_app self events1 events2 :
  feed self (events1 ++ events2) =
  match feed self events1 with
  | OK self' => feed self' events2
  | Raise x => Raise x
  end.
Proof.
  revert self. induction events1 as [|e events1 IH]; intros self; simpl; [reflexivity|].
  destruct (handle self e); auto.
Qed.

Lemma wf_feed events : forall self self', wf self -> feed self events = OK self' -> wf self'.
Proof.
  induction events as [|e events IH]; simpl; intros self self' Hwf H.
  - inversion H; subst; auto.
  - destruct (handle self e) as [self1|] eqn:He; [|discriminate].
    eapply IH; [|eauto]. eapply wf_handle; eauto.
Qed.

End ExtractorFacts.

(** ** Start tags *)

Section StartTags.

Lemma handle_starttag_mailto self (attrs : list (str * option str)) getpos (h : str) :
  dict attrs !! lit "href" = Some (Some h) ->
  startswith h (lit "mailto:") = true ->
  handle_starttag self (lit "a") attrs getpos = OK (opened self h attrs getpos).
Proof.
  intros Hh Hm. unfold handle_starttag.
  rewrite bool_decide_eq_true_2 by reflexivity. rewrite Hh, Hm. reflexivity.
Qed.

Lemma handle_starttag_other self (attrs : list (str * option str)) getpos :
  dict attrs !! lit "href" <> Some None ->
  (forall h : str, dict attrs !! lit "href" = Some (Some h) ->
     startswith h (lit "mailto:") = false) ->
  handle_starttag self (lit "a") attrs getpos = OK self.
Proof.
  intros Hn Hh. unfold handle_starttag.
  rewrite bool_decide_eq_true_2 by reflexivity.
  destruct (dict attrs !! lit "href") as [[h|]|]; [|congruence|reflexivity].
  rewrite (Hh h eq_refl). reflexivity.
Qed.

Lemma handle_starttag_None self (attrs : list (str * option str)) getpos :
  dict attrs !! lit "href" = Some None ->
  handle_starttag self (lit "a") attrs getpos = Raise AttributeError.
Proof.
  intros Hh. unfold handle_starttag.
  rewrite bool_decide_eq_true_2 by reflexivity. rewrite Hh. reflexivity.
Qed.

(** C5.  On a start tag of an [a] element the attributes are read as the
    mapping [dict attrs], which gives a name, compared exactly, the value
    of its last occurrence.  A new current link is opened (a dict is
    created and [current_link] refers to it) exactly when the mapping has
    an [href] whose value starts with [mailto:]; the new dict holds that
    href, the value of [class] (the empty string when there is none), an
    empty text and the line of the tag, which is counted from 1. *)
Theorem handle_starttag_anchor self (attrs : list (str * option str))
    (getpos : positive * nat) :
  (forall k : str, dict attrs !! k = attr_value attrs k) /\
  ((exists self', handle_starttag self (lit "a") attrs getpos = OK self' /\
      length (store self') = S (length (store self)) /\
      current_link self' = Some (length (store self)))
   <-> exists h : str, dict attrs !! lit "href" = Some (Some h) /\
         startswith h (lit "mailto:") = true) /\
  (forall h : str,
     dict attrs !! lit "href" = Some (Some h) ->
     startswith h (lit "mailto:") = true ->
     handle_starttag self (lit "a") attrs getpos =
       OK {| store := store self ++
               [ {| href := h;
                    class := default (Some []) (dict attrs !! lit "class");
                    text := [];
                    line_num := getpos.1 |} ];
             email_links := email_links self;
             current_link := Some (length (store self));
             in_link := true |} /\
     (1 <= Pos.to_nat getpos.1)).
Proof.
  split; [apply dict_lookup|]. split.
  - split.
    + intros (self' & H & Hlen & _).
      destruct (handle_starttag_cases self (lit "a") attrs getpos)
        as [E|[E|(h & _ & Hh & Hm & _)]]; [| |eauto].
      * rewrite E in H. inversion H; subst. lia.
      * rewrite E in H. discriminate.
    + intros (h & Hh & Hm). eexists. split; [apply handle_starttag_mailto; eauto|].
      simpl. rewrite length_app. simpl. split; [lia|reflexivity].
  - intros h Hh Hm. split; [apply handle_starttag_mailto; auto | lia].
Qed.

Lemma handle_starttag_anchor_witness :
  handle_starttag init (lit "a")
    [(lit "class", Some (lit "email-link")); (lit "href", Some (lit "mailto:x@y.zz"))]
    (12%positive, 4) =
  OK {| store := [ {| href := lit "mailto:x@y.zz"; class := Some (lit "email-link");
                      text := []; line_num := 12 |} ];
        email_links := []; current_link := Some 0; in_link := true |}.
Proof.
  apply (proj1 (proj2 (proj2 (handle_starttag_anchor init
    [(lit "class", Some (lit "email-link")); (lit "href", Some (lit "mailto:x@y.zz"))]
    (12%positive, 4))) (lit "mailto:x@y.zz") eq_refl eq_refl)).
Defined.

(** Attribute names are compared as they are: [HREF] is not [href]. *)
Lemma handle_starttag_case_sensitive self getpos :
  handle_starttag self (lit "a") [(lit "HREF", Some (lit "mailto:x@y.zz"))] getpos = OK self.
Proof. reflexivity. Qed.

(** C8.  A start tag of an [a] element whose [href] has no value makes
    the handler raise [AttributeError]: [feed] does not return and [main]
    ends with the exception, whatever came before and whatever follows. *)
Theorem href_without_value_raises (events1 events2 : list event) self
    (attrs : list (str * option str)) (getpos : positive * nat) :
  feed init events1 = OK self ->
  dict attrs !! lit "href" = Some None ->
  handle_starttag self (lit "a") attrs getpos = Raise AttributeError /\
  feed init (events1 ++ StartTag (lit "a") attrs getpos :: events2) = Raise AttributeError /\
  forall str_of_list html_content,
    main str_of_list html_content (events1 ++ StartTag (lit "a") attrs getpos :: events2)
    = Raise AttributeError.
Proof.
  intros H1 Hh. pose proof (handle_starttag_None self attrs getpos Hh) as E.
  assert (F : feed init (events1 ++ StartTag (lit "a") attrs getpos :: events2)
              = Raise AttributeError).
  { rewrite feed_app, H1. simpl. rewrite E. reflexivity. }
  split; [exact E|]. split; [exact F|].
  intros sol html. unfold main. rewrite F. reflexivity.
Qed.

Lemma href_without_value_raises_witness :
  feed init [StartTag (lit "a") [(lit "href", None)] (1%positive, 0)] = Raise AttributeError.
Proof.
  exact (proj1 (proj2 (href_without_value_raises [] [] init [(lit "href", None)]
    (1%positive, 0) eq_refl eq_refl))).
Defined.

End StartTags.

(** ** Open links: overwriting, nesting, closing *)

Section OpenLinks.

Lemma lost_handle r self e self' : lost r self -> handle self e = OK self' -> lost r self'.
Proof.
  intros (Hlt & Hnin & Hcur) H. destruct e as [tag attrs getpos|tag|data]; simpl in H.
  - destruct (handle_starttag_cases self tag attrs getpos) as [E|[E|(h & _ & _ & _ & E)]];
      rewrite E in H; inversion H; subst; clear H.
    + repeat split; auto.
    + repeat split; simpl; auto.
      * rewrite length_app. simpl. lia.
      * intros Heq. inversion Heq. lia.
  - inversion H; subst; clear H. unfold handle_endtag.
    destruct (bool_decide (tag = lit "a") && in_link self); [|repeat split; auto].
    destruct (current_link self) as [r'|] eqn:Hc; repeat split; simpl; auto; try discriminate.
    rewrite not_elem_of_app. split; auto.
    rewrite list_elem_of_singleton. congruence.
  - inversion H; subst; clear H. unfold handle_data.
    destruct (in_link self); [|repeat split; auto].
    destruct (current_link self) as [r'|] eqn:Hc; [|repeat split; auto; congruence].
    repeat split; simpl; auto. rewrite length_alter. auto.
Qed.

Lemma lost_feed r events : forall self self',
  lost r self -> feed self events = OK self' -> lost r self'.
Proof.
  induction events as [|e events IH]; simpl; intros self self' Hl H.
  - inversion H; subst; auto.
  - destruct (handle self e) as [self1|] eqn:He; [|discriminate].
    eapply IH; [|eauto]. eapply lost_handle; eauto.
Qed.

(** C6.  When a start tag of a mailto anchor arrives while a link [r] is
    still open, [current_link] is replaced by the new dict, and whatever
    follows, the dict [r] is never among [email_links]: the open link is
    not part of the output. *)
Theorem second_starttag_overwrites (events1 events2 : list event) self final (r : nat)
    (attrs : list (str * option str)) (getpos : positive * nat) (h : str) :
  feed init events1 = OK self ->
  current_link self = Some r ->
  dict attrs !! lit "href" = Some (Some h) ->
  startswith h (lit "mailto:") = true ->
  feed self (StartTag (lit "a") attrs getpos :: events2) = OK final ->
  (exists self',
     handle_starttag self (lit "a") attrs getpos = OK self' /\
     current_link self' = Some (length (store self)) /\
     length (store self) <> r /\
     email_links self' = email_links self) /\
  (r ∉ email_links final) /\
  (forall rec, rec ∈ links final -> exists r', r' <> r /\ (r' ∈ email_links final) /\
     store final !! r' = Some rec).
Proof.
  intros H1 Hc Hh Hm H2.
  assert (Hwf : wf self) by (eapply wf_feed; [apply wf_init | eauto]).
  destruct (wf_current _ Hwf r Hc) as [Hlt Hbelow].
  pose proof (handle_starttag_mailto self attrs getpos h Hh Hm) as E.
  simpl in H2. rewrite E in H2.
  assert (Hlost : lost r (opened self h attrs getpos)).
  { repeat split; simpl.
    - rewrite length_app. simpl. lia.
    - intros Hin. specialize (Hbelow r Hin). lia.
    - intros Heq. inversion Heq. lia. }
  pose proof (lost_feed r events2 _ _ Hlost H2) as (Hlt' & Hnin & _).
  split; [|split; [exact Hnin|]].
  - exists (opened self h attrs getpos). repeat split; auto. lia.
  - assert (Hwf' : wf final).
    { eapply wf_feed; [|exact H2].
      eapply wf_handle_starttag; [exact Hwf | exact E]. }
    intros rec Hrec. unfold links in Hrec.
    apply list_elem_of_fmap in Hrec as (r' & -> & Hr').
    exists r'. split; [congruence|]. split; [exact Hr'|].
    apply list_lookup_lookup_total_lt. apply (wf_links _ Hwf'); auto.
Qed.

Lemma second_starttag_overwrites_witness :
  match feed init
          [ StartTag (lit "a") [(lit "href", Some (lit "mailto:a@b.cc"))] (1%positive, 0);
            Data (lit "one");
            StartTag (lit "a") [(lit "href", Some (lit "mailto:c@d.ee"))] (2%positive, 0);
            Data (lit "two");
            EndTag (lit "a") ] with
  | OK final => 0 ∉ email_links final
  | Raise _ => False
  end.
Proof.
  exact (proj1 (proj2 (second_starttag_overwrites
    [ StartTag (lit "a") [(lit "href", Some (lit "mailto:a@b.cc"))] (1%positive, 0);
      Data (lit "one") ]
    [ Data (lit "two"); EndTag (lit "a") ]
    _ _ 0 [(lit "href", Some (lit "mailto:c@d.ee"))] (2%positive, 0) (lit "mailto:c@d.ee")
    eq_refl eq_refl eq_refl eq_refl eq_refl))).
Defined.

End OpenLinks.

Section Nesting.

Lemma set_text_id rec : set_text (text rec) rec = rec.
Proof. destruct rec; reflexivity. Qed.

Lemma insert_alter_eq (f : LinkRecord -> LinkRecord) (l : list LinkRecord) (i : nat) x :
  <[i:=x]> (alter f i l) = <[i:=x]> l.
Proof. rewrite !list_insert_alter, list_alter_alter_eq. reflexivity. Qed.

(** Events that are not anchor tags leave the link open and add their
    stripped data to its text. *)
Lemma feed_inside_link (events : list event) : forall self (r : nat) rec,
  in_link self = true ->
  current_link self = Some r ->
  store self !! r = Some rec ->
  Forall not_anchor events ->
  feed self events =
    OK {| store := <[r := set_text (text rec ++ data_text events) rec]> (store self);
          email_links := email_links self;
          current_link := Some r;
          in_link := true |}.
Proof.
  induction events as [|e events IH]; intros self r rec Hin Hc Hr Hall; simpl.
  - rewrite app_nil_r, set_text_id, list_insert_id by exact Hr.
    destruct self; simpl in *; subst; reflexivity.
  - inversion Hall as [|? ? He Hall']; subst.
    destruct e as [tag attrs getpos|tag|data]; simpl in *.
    + unfold handle_starttag. rewrite bool_decide_eq_false_2 by exact He.
      apply IH; auto.
    + unfold handle_endtag. rewrite bool_decide_eq_false_2 by exact He. simpl.
      apply IH; auto.
    + unfold handle_data. rewrite Hin, Hc.
      rewrite (IH _ r (set_text (text rec ++ strip data) rec)); simpl; auto.
      * rewrite insert_alter_eq. unfold set_text; simpl. rewrite <- app_assoc. reflexivity.
      * rewrite list_lookup_alter_eq, Hr. reflexivity.
Qed.

(** C9.  While a mailto link is open, the start tag of an anchor whose
    href is absent or does not start with [mailto:] changes nothing; the
    next end tag of an anchor, that of the nested one, appends the open
    dict to [email_links] with the text gathered so far, and data that
    follows is no longer added to it. *)
Theorem nested_anchor_closes_open_link self (r : nat) rec
    (attrs : list (str * option str)) (getpos : positive * nat)
    (inside : list event) :
  in_link self = true ->
  current_link self = Some r ->
  store self !! r = Some rec ->
  dict attrs !! lit "href" <> Some None ->
  (forall h : str, dict attrs !! lit "href" = Some (Some h) ->
     startswith h (lit "mailto:") = false) ->
  Forall not_anchor inside ->
  let closed :=
    {| store := <[r := set_text (text rec ++ data_text inside) rec]> (store self);
       email_links := email_links self ++ [r];
       current_link := None;
       in_link := false |} in
  handle_starttag self (lit "a") attrs getpos = OK self /\
  feed self (StartTag (lit "a") attrs getpos :: inside ++ [EndTag (lit "a")]) = OK closed /\
  forall data, handle_data closed data = closed.
Proof.
  intros Hin Hc Hr Hn Hh Hall closed.
  pose proof (handle_starttag_other self attrs getpos Hn Hh) as E.
  split; [exact E|]. split; [|reflexivity].
  simpl. rewrite E. rewrite feed_app.
  rewrite (feed_inside_link inside self r rec Hin Hc Hr Hall). reflexivity.
Qed.

Lemma nested_anchor_closes_open_link_witness :
  feed {| store := [ {| href := lit "mailto:x@y.zz"; class := Some [];
                        text := lit "x@"; line_num := 1 |} ];
          email_links := []; current_link := Some 0; in_link := true |}
    (StartTag (lit "a") [(lit "href", Some (lit "http://y.zz"))] (1%positive, 30)
     :: [Data (lit " y.zz ")] ++ [EndTag (lit "a")])
  = OK {| store := [ {| href := lit "mailto:x@y.zz"; class := Some [];
                        text := lit "x@y.zz"; line_num := 1 |} ];
          email_links := [0]; current_link := None; in_link := false |}.
Proof.
  refine (proj1 (proj2 (nested_anchor_closes_open_link
    {| store := [ {| href := lit "mailto:x@y.zz"; class := Some [];
                     text := lit "x@"; line_num := 1 |} ];
       email_links := []; current_link := Some 0; in_link := true |}
    0 {| href := lit "mailto:x@y.zz"; class := Some []; text := lit "x@"; line_num := 1 |}
    [(lit "href", Some (lit "http://y.zz"))] (1%positive, 30) [Data (lit " y.zz ")]
    eq_refl eq_refl eq_refl _ _ _))).
  - vm_compute. discriminate.
  - intros h Hh. vm_compute in Hh. injection Hh as <-. reflexivity.
  - repeat constructor.
Defined.

End Nesting.

(** ** A class attribute without a value *)

Section ClassNone.

(** C10.  When the [class] of a mailto anchor has no value, the dict
    opened for it holds [None] for ['class'], not the empty string; for
    such a link, whatever its text becomes, the report prints
    [Class: None] and the has-class check reports WARN. *)
Theorem class_without_value_is_None self (attrs : list (str * option str))
    (getpos : positive * nat) (h : str) :
  dict attrs !! lit "href" = Some (Some h) ->
  startswith h (lit "mailto:") = true ->
  dict attrs !! lit "class" = Some None ->
  exists self' rec,
    handle_starttag self (lit "a") attrs getpos = OK self' /\
    current_link self' = Some (length (store self)) /\
    store self' !! length (store self) = Some rec /\
    class rec = None /\ class rec <> Some [] /\
    forall (i : nat) (t : str) (b : bool),
      bool_class (class (set_text t rec)) = false /\
      In (lit "Class: None") (check_link i (set_text t rec) b).1 /\
      In (lit "  " ++ WARN ++ lit " - Has CSS class for styling")
         (check_link i (set_text t rec) b).1.
Proof.
  intros Hh Hm Hc.
  exists (opened self h attrs getpos),
    {| href := h; class := None; text := []; line_num := getpos.1 |}.
  split; [apply handle_starttag_mailto; auto|].
  split; [reflexivity|]. split.
  - simpl. rewrite Hc. simpl. apply list_lookup_middle. reflexivity.
  - split; [reflexivity|]. split; [discriminate|].
    intros i t b. split; [reflexivity|]. unfold check_link; simpl. split.
    + do 4 right. left. reflexivity.
    + do 9 right. apply in_or_app. right. left. reflexivity.
Qed.

Lemma class_without_value_is_None_witness :
  exists self' rec,
    handle_starttag init (lit "a")
      [(lit "class", None); (lit "href", Some (lit "mailto:x@y.zz"))] (7%positive, 2)
      = OK self' /\
    current_link self' = Some 0 /\
    store self' !! 0 = Some rec /\
    class rec = None /\ class rec <> Some [] /\
    forall (i : nat) (t : str) (b : bool),
      bool_class (class (set_text t rec)) = false /\
      In (lit "Class: None") (check_link i (set_text t rec) b).1 /\
      In (lit "  " ++ WARN ++ lit " - Has CSS class for styling")
         (check_link i (set_text t rec) b).1.
Proof.
  exact (class_without_value_is_None init
    [(lit "class", None); (lit "href", Some (lit "mailto:x@y.zz"))] (7%positive, 2)
    (lit "mailto:x@y.zz") eq_refl eq_refl eq_refl).
Defined.

End ClassNone.

(** ** Document order *)

Section DocumentOrder.

Lemma opened_by_app events1 events2 i rec :
  opened_by events1 i rec -> opened_by (events1 ++ events2) i rec.
Proof.
  intros (attrs & getpos & H & Hrest). exists attrs, getpos.
  split; [apply lookup_app_l_Some; exact H | exact Hrest].
Qed.

Lemma traced_init : traced [] init.
Proof.
  exists []. split; [constructor|]. split; [apply increasing_nil|].
  intros i H. inversion H.
Qed.

Lemma traced_weaken events e self (store' : list LinkRecord) orig :
  Forall2 (opened_by events) orig store' ->
  increasing orig ->
  (forall i, i ∈ orig -> i < length events) ->
  store self = store' ->
  traced (events ++ [e]) self.
Proof.
  intros HF Hinc Hb Hs. exists orig. rewrite Hs. split; [|split; auto].
  - eapply Forall2_impl; [exact HF|]. intros i rec. apply opened_by_app.
  - intros i Hi. rewrite length_app. simpl. specialize (Hb i Hi). lia.
Qed.

Lemma traced_handle events self e self' :
  traced events self -> handle self e = OK self' -> traced (events ++ [e]) self'.
Proof.
  intros (orig & HF & Hinc & Hb) H.
  destruct e as [tag attrs getpos|tag|data]; simpl in H.
  - destruct (handle_starttag_cases self tag attrs getpos)
      as [E|[E|(h & -> & Hh & Hm & E)]]; rewrite E in H; inversion H; subst; clear H.
    + eapply traced_weaken; eauto.
    + exists (orig ++ [length events]). simpl. split; [|split].
      * apply Forall2_app.
        -- eapply Forall2_impl; [exact HF|]. intros i rec. apply opened_by_app.
        -- constructor; [|constructor]. exists attrs, getpos. simpl.
           split; [apply list_lookup_middle; reflexivity|]. auto.
      * apply increasing_snoc; auto.
      * intros i Hi. rewrite length_app. simpl.
        apply elem_of_app in Hi as [Hi|Hi]; [specialize (Hb i Hi); lia|].
        apply list_elem_of_singleton in Hi. lia.
  - inversion H; subst; clear H. eapply traced_weaken; eauto.
    unfold handle_endtag.
    destruct (bool_decide (tag = lit "a") && in_link self); [|reflexivity].
    destruct (current_link self); reflexivity.
  - inversion H; subst; clear H. unfold handle_data.
    destruct (in_link self); [|eapply traced_weaken; eauto].
    destruct (current_link self) as [r|]; [|eapply traced_weaken; eauto].
    eapply traced_weaken with (orig := orig); [|exact Hinc|exact Hb|reflexivity].
    simpl. apply Forall2_alter_r; [exact HF|].
    intros i rec _ _ (attrs & getpos & Hrest). exists attrs, getpos. exact Hrest.
Qed.

Lemma traced_feed (events2 : list event) : forall events1 self final,
  traced events1 self -> feed self events2 = OK final -> traced (events1 ++ events2) final.
Proof.
  induction events2 as [|e events2 IH]; simpl; intros events1 self final Ht H.
  - inversion H; subst. rewrite app_nil_r. exact Ht.
  - destruct (handle self e) as [self1|] eqn:He; [|discriminate].
    rewrite cons_middle, app_assoc. eapply IH; [|exact H].
    eapply traced_handle; eauto.
Qed.

(** A handler keeps the links collected so far, dict by dict, and at most
    appends one. *)
Lemma links_prefix_handle self e self' :
  wf self -> handle self e = OK self' -> links self `prefix_of` links self'.
Proof.
  intros Hwf H. destruct e as [tag attrs getpos|tag|data]; simpl in H.
  - destruct (handle_starttag_cases self tag attrs getpos)
      as [E|[E|(h & _ & _ & _ & E)]]; rewrite E in H; inversion H; subst; clear H.
    + reflexivity.
    + unfold links; simpl. match goal with |- ?l `prefix_of` ?k => assert (Heq : l = k) end;
        [|rewrite Heq; reflexivity].
      apply list_fmap_ext. intros i r Hr. symmetry. apply lookup_total_app_l.
      apply (wf_links _ Hwf). eapply list_elem_of_lookup_2; eauto.
  - inversion H; subst; clear H. unfold handle_endtag.
    destruct (bool_decide (tag = lit "a") && in_link self); [|reflexivity].
    destruct (current_link self) as [r|]; [|reflexivity].
    unfold links; simpl. rewrite fmap_app. apply prefix_app_r. reflexivity.
  - inversion H; subst; clear H. unfold handle_data.
    destruct (in_link self); [|reflexivity].
    destruct (current_link self) as [r|] eqn:Hc; [|reflexivity].
    unfold links; simpl. match goal with |- ?l `prefix_of` ?k => assert (Heq : l = k) end;
      [|rewrite Heq; reflexivity].
    apply list_fmap_ext. intros i r' Hr'. symmetry. apply list_lookup_total_alter_ne.
    destruct (wf_current _ Hwf r Hc) as [_ Hbelow].
    specialize (Hbelow r' (list_elem_of_lookup_2 _ _ _ Hr')). lia.
Qed.

Lemma links_prefix_feed (events : list event) : forall self final,
  wf self -> feed self events = OK final -> links self `prefix_of` links final.
Proof.
  induction events as [|e events IH]; simpl; intros self final Hwf H.
  - inversion H; subst. reflexivity.
  - destruct (handle self e) as [self1|] eqn:He; [|discriminate].
    transitivity (links self1).
    + eapply links_prefix_handle; eauto.
    + eapply IH; [|exact H]. eapply wf_handle; eauto.
Qed.

(** C7.  The links are in document order: each was opened by a start tag
    of the document, these start tags come one strictly after the other in
    the order of the links, and at any moment of the scan the links
    collected so far are, unchanged, the beginning of the final
    sequence. *)
Theorem links_in_document_order (events1 events2 : list event) mid final :
  feed init events1 = OK mid ->
  feed mid events2 = OK final ->
  links mid `prefix_of` links final /\
  exists origins : list nat,
    increasing origins /\
    Forall2 (opened_by (events1 ++ events2)) origins (links final).
Proof.
  intros H1 H2.
  assert (Hwf1 : wf mid) by (eapply wf_feed; [apply wf_init | eauto]).
  assert (Hwf : wf final) by (eapply wf_feed; eauto).
  split; [eapply links_prefix_feed; eauto|].
  assert (Ht : traced (events1 ++ events2) final).
  { eapply traced_feed; [|exact H2].
    change events1 with ([] ++ events1). eapply traced_feed; [apply traced_init | exact H1]. }
  destruct Ht as (orig & HF & Hinc & _).
  pose proof (Forall2_length _ _ _ HF) as Hlen.
  exists ((fun r => orig !!! r) <$> email_links final). split.
  - intros i j x y Hij Hi Hj.
    rewrite list_lookup_fmap in Hi, Hj.
    destruct (email_links final !! i) as [ri|] eqn:Ei; [|discriminate].
    destruct (email_links final !! j) as [rj|] eqn:Ej; [|discriminate].
    simpl in Hi, Hj. inversion Hi; inversion Hj; subst x y.
    pose proof (wf_increasing _ Hwf i j ri rj Hij Ei Ej) as Hr.
    pose proof (wf_links _ Hwf rj (list_elem_of_lookup_2 _ _ _ Ej)) as Hb.
    apply (Hinc ri rj); [exact Hr| |]; apply list_lookup_lookup_total_lt; lia.
  - unfold links. apply Forall2_fmap. apply Forall_Forall2_diag.
    apply Forall_forall. intros r Hr.
    pose proof (wf_links _ Hwf r Hr) as Hb.
    eapply Forall2_lookup_lr; [exact HF| |]; apply list_lookup_lookup_total_lt; lia.
Qed.

Lemma links_in_document_order_witness :
  match feed init
          [ StartTag (lit "a") [(lit "href", Some (lit "mailto:a@b.cc"))] (1%positive, 0);
            Data (lit "a@b.cc"); EndTag (lit "a");
            StartTag (lit "a") [(lit "href", Some (lit "mailto:c@d.ee"))] (2%positive, 0);
            Data (lit "c@d.ee"); EndTag (lit "a") ] with
  | OK final =>
      [ {| href := lit "mailto:a@b.cc"; class := Some []; text := lit "a@b.cc";
           line_num := 1 |} ] `prefix_of` links final
  | Raise _ => False
  end.
Proof.
  exact (proj1 (links_in_document_order
    [ StartTag (lit "a") [(lit "href", Some (lit "mailto:a@b.cc"))] (1%positive, 0);
      Data (lit "a@b.cc"); EndTag (lit "a") ]
    [ StartTag (lit "a") [(lit "href", Some (lit "mailto:c@d.ee"))] (2%positive, 0);
      Data (lit "c@d.ee"); EndTag (lit "a") ]
    _ _ eq_refl eq_refl)).
Defined.

End DocumentOrder.

(** ** The report *)

Section ReportFacts.

Variable str_of_list : list str -> str.

Lemma check_link_flag i link b :
  (check_link i link b).2 = b && format_ok link && text_ok link.
Proof.
  unfold check_link, format_ok, text_ok. simpl.
  destruct (validate_email_format (email_of link)),
    (bool_decide (text link = email_of link)), b; reflexivity.
Qed.

Lemma check_links_cons i link links b :
  check_links i (link :: links) b =
  ((check_link i link b).1 ++ (check_links (S i) links (check_link i link b).2).1,
   (check_links (S i) links (check_link i link b).2).2).
Proof.
  cbn [check_links]. destruct (check_link i link b) as [out b1].
  cbn [fst snd]. destruct (check_links (S i) links b1). reflexivity.
Qed.

Lemma check_links_flag links : forall i b,
  (check_links i links b).2 = b && forallb (fun l => format_ok l && text_ok l) links.
Proof.
  induction links as [|link links IH]; intros i b.
  - simpl. rewrite andb_true_r. reflexivity.
  - rewrite check_links_cons. cbn [fst snd forallb].
    rewrite IH, check_link_flag, <- !andb_assoc. reflexivity.
Qed.

Lemma report_flag html_content links :
  (report str_of_list html_content links).2 =
  forallb (fun l => format_ok l && text_ok l) links
  && no_duplicate_tags html_content && no_malformed_mailto html_content.
Proof.
  unfold report, no_duplicate_tags, no_malformed_mailto.
  pose proof (check_links_flag links 1 true) as E.
  destruct (check_links 1 links true) as [out b]. simpl in E. subst b.
  destruct (check_duplicate_tags html_content) as [|d ds];
    destruct (findall malformed_pattern html_content) as [|m ms]; simpl;
    rewrite ?andb_true_r, ?andb_false_r; reflexivity.
Qed.

End ReportFacts.

(** C1.  The final [all_tests_passed] is the conjunction of the format and
    text checks of every link with the duplicate-tag and malformed-mailto
    checks of the document.  Each pass through the loop keeps the flag
    exactly when these two checks of the link pass, and the class of the
    links, on which the has-class check rests, can be changed at will
    without changing the flag; the domain check does not occur in it. *)
Theorem all_tests_passed_is_conjunction (str_of_list : list str -> str)
    (html_content : str) (links : list LinkRecord) :
  (report str_of_list html_content links).2 =
    forallb (fun l => format_ok l && text_ok l) links
    && no_duplicate_tags html_content && no_malformed_mailto html_content
  /\ (forall (i : nat) (link : LinkRecord) (b : bool),
        (check_link i link b).2 = b && format_ok link && text_ok link)
  /\ (forall c : LinkRecord -> option str,
        (report str_of_list html_content (map (fun l => set_class (c l) l) links)).2 =
        (report str_of_list html_content links).2).
Proof.
  split; [apply report_flag|]. split; [apply check_link_flag|].
  intros c. rewrite !report_flag. f_equal. f_equal.
  induction links as [|l links IH]; simpl; [reflexivity|]. rewrite IH. reflexivity.
Qed.

(** [main] returns the flag of [report] on the links of the parser. *)
Lemma main_flag (str_of_list : list str -> str) (html_content : str)
    (events : list event) out b :
  main str_of_list html_content events = OK (out, b) ->
  exists parser,
    feed init events = OK parser /\
    b = forallb (fun l => format_ok l && text_ok l) (links parser)
        && no_duplicate_tags html_content && no_malformed_mailto html_content.
Proof.
  unfold main. destruct (feed init events) as [parser|]; [|discriminate].
  pose proof (report_flag str_of_list html_content (links parser)) as E.
  destruct (report str_of_list html_content (links parser)) as [out' b'].
  intros H. inversion H; subst. exists parser. split; [reflexivity|exact E].
Qed.

(** A link to another domain and without class passes. *)
Lemma other_domain_passes (str_of_list : list str -> str) :
  let link := {| href := lit "mailto:someone@gmail.com"; class := Some [];
                 text := lit "someone@gmail.com"; line_num := 1 |} in
  is_mckenzie (email_of link) = false /\
  bool_class (class link) = false /\
  (report str_of_list [] [link]).2 = true.
Proof. repeat split; vm_compute; reflexivity. Qed.

(** ** The candidate email and its domain *)

Section Candidate.

Lemma remove_from_skip (old : str) (k : nat) : forall s : str,
  remove_from old k s = remove_from old 0 (drop k s).
Proof.
  induction k as [|k IH]; intros s; [reflexivity|].
  destruct s as [|c s]; [reflexivity|]. simpl. apply IH.
Qed.

Lemma remove_all_absent (old s : str) :
  contains old s = false -> remove_all old s = s.
Proof.
  unfold remove_all. induction s as [|c s IH]; [reflexivity|].
  cbn [contains remove_from]. intros H. apply orb_false_iff in H as [H1 H2].
  rewrite H1, IH by exact H2. reflexivity.
Qed.

Lemma remove_all_prefix (old e : str) :
  old <> [] -> remove_all old (old ++ e) = remove_all old e.
Proof.
  intros Hne. destruct old as [|c old']; [congruence|]. unfold remove_all.
  change ((c :: old') ++ e) with (c :: (old' ++ e)). cbn [remove_from].
  unfold startswith. rewrite bool_decide_eq_true_2 by (exists e; reflexivity).
  rewrite remove_from_skip, drop_app_length. reflexivity.
Qed.

(** X17.  When [mailto:] occurs in the href only as its prefix, the candidate
    email is what follows the prefix. *)
Lemma email_of_single_prefix link (e : str) :
  href link = lit "mailto:" ++ e ->
  contains (lit "mailto:") e = false ->
  email_of link = e /\ email_of link = after_prefix (lit "mailto:") (href link).
Proof.
  intros Hh He. unfold email_of, after_prefix. rewrite Hh.
  rewrite remove_all_prefix by discriminate.
  rewrite remove_all_absent by exact He.
  rewrite drop_app_length. split; reflexivity.
Qed.

(** C4 (the code departs from it).  The candidate email is to be the part
    of the href after its [mailto:] prefix.  For the anchor with href
    [mailto:mailto:a@b.cc] and text [a@b.cc], which the extractor delivers
    as it is, [email_of] removes both occurrences of [mailto:]: the
    candidate is [a@b.cc], not [mailto:a@b.cc], and the format and text
    checks, which fail on the part after the prefix, pass. *)
Theorem email_of_removes_every_mailto :
  let link := {| href := lit "mailto:mailto:a@b.cc"; class := Some [];
                 text := lit "a@b.cc"; line_num := 1 |} in
  (exists parser,
     feed init
       [ StartTag (lit "a") [(lit "href", Some (lit "mailto:mailto:a@b.cc"))] (1%positive, 0);
         Data (lit "a@b.cc"); EndTag (lit "a") ] = OK parser /\
     links parser = [link]) /\
  email_of link = lit "a@b.cc" /\
  after_prefix (lit "mailto:") (href link) = lit "mailto:a@b.cc" /\
  validate_email_format (email_of link) = true /\
  validate_email_format (after_prefix (lit "mailto:") (href link)) = false /\
  text_ok link = true /\
  text link <> after_prefix (lit "mailto:") (href link) /\
  (check_link 1 link true).2 = true.
Proof.
  cbv zeta. split; [eexists; split; vm_compute; reflexivity|].
  repeat split; try (vm_compute; reflexivity).
  vm_compute. discriminate.
Qed.

Lemma split_before_after (sep : N) (s : str) :
  (if contains_char sep s then nth 1 (split sep s) [] else []) =
  before_first sep (after_first sep s) /\
  nth 0 (split sep s) [] = before_first sep s.
Proof.
  induction s as [|c s [IH1 IH0]]; [split; reflexivity|].
  cbn [split after_first before_first].
  destruct (N.eqb_spec c sep) as [->|Hne].
  - split; [|reflexivity]. unfold contains_char.
    rewrite bool_decide_eq_true_2 by left. exact IH0.
  - assert (Hc : contains_char sep (c :: s) = contains_char sep s).
    { unfold contains_char. apply bool_decide_ext. rewrite elem_of_cons. intuition congruence. }
    rewrite Hc. destruct (split sep s) as [|piece pieces] eqn:Hs.
    + simpl in *. split; [|congruence].
      destruct (contains_char sep s); [|exact IH1]. exact IH1.
    + simpl in *. split; [exact IH1 | congruence].
Qed.

(** The domain is case-sensitive. *)
Lemma is_mckenzie_examples :
  domain_of (lit "chat@mckenziestudios.ai") = lit "mckenziestudios.ai" /\
  is_mckenzie (lit "chat@mckenziestudios.ai") = true /\
  domain_of (lit "someone@gmail.com") = lit "gmail.com" /\
  is_mckenzie (lit "someone@gmail.com") = false /\
  is_mckenzie (lit "chat@McKenzieStudios.ai") = false /\
  domain_of (lit "no-at-sign") = [].
Proof. repeat split; vm_compute; reflexivity. Qed.

(** C3 as stated fails: with two [@] the domain stops at the second. *)
Lemma domain_of_two_ats :
  domain_of (lit "a@b@mckenziestudios.ai") <> after_first (ord "@") (lit "a@b@mckenziestudios.ai") /\
  is_mckenzie (lit "a@b@mckenziestudios.ai") = false /\
  contains (lit "mckenziestudios") (after_first (ord "@") (lit "a@b@mckenziestudios.ai")) = true.
Proof. split; [vm_compute; discriminate|]. split; vm_compute; reflexivity. Qed.

(** C3, amended.  The domain is the part of the candidate email between
    its first [@] and the next [@], or the end when there is no other (the
    empty string when there is no [@]).  The check passes exactly when the
    domain contains [mckenziestudios], compared code point by code point;
    the report shows PASS or INFO with the domain, and the flag after the
    link does not depend on the outcome. *)
Theorem domain_check (email : str) :
  domain_of email = before_first (ord "@") (after_first (ord "@") email) /\
  is_mckenzie email =
    contains (lit "mckenziestudios") (before_first (ord "@") (after_first (ord "@") email)) /\
  forall (i : nat) (link : LinkRecord) (b : bool),
    In (lit "  " ++ (if is_mckenzie (email_of link) then PASS else INFO)
          ++ lit " - Domain: " ++ domain_of (email_of link))
       (check_link i link b).1 /\
    (check_link i link b).2 = b && format_ok link && text_ok link.
Proof.
  assert (E : domain_of email = before_first (ord "@") (after_first (ord "@") email)).
  { unfold domain_of. apply split_before_after. }
  split; [exact E|]. split; [unfold is_mckenzie; rewrite E; reflexivity|].
  intros i link b. split; [|apply check_link_flag].
  unfold check_link. cbn [fst]. apply in_or_app. right. apply in_or_app. right.
  right. left. reflexivity.
Qed.

End Candidate.

(** ** Searching the document *)

Section Search.

Lemma longest_prefix_Some (s : str) : forall r n,
  longest_prefix r s = Some n -> Matches r (take n s).
Proof.
  induction s as [|c s IH]; intros r n; cbn [longest_prefix].
  - destruct (nullable r) eqn:Hn; [|discriminate]. intros H; inversion H; subst.
    apply nullable_Matches_nil. exact Hn.
  - destruct (longest_prefix (deriv c r) s) as [m|] eqn:Hm.
    + intros H; inversion H; subst. simpl. apply deriv_sound. apply IH. exact Hm.
    + destruct (nullable r) eqn:Hn; [|discriminate]. intros H; inversion H; subst.
      apply nullable_Matches_nil. exact Hn.
Qed.

Lemma longest_prefix_None (s : str) : forall r n,
  longest_prefix r s = None -> ~ Matches r (take n s).
Proof.
  induction s as [|c s IH]; intros r n; cbn [longest_prefix].
  - destruct (nullable r) eqn:Hn; [discriminate|]. intros _ H.
    rewrite take_nil in H. apply Matches_nil_nullable in H. congruence.
  - destruct (longest_prefix (deriv c r) s) as [m|] eqn:Hm; [discriminate|].
    destruct (nullable r) eqn:Hn; [discriminate|]. intros _ H.
    destruct n as [|n]; simpl in H.
    + apply Matches_nil_nullable in H. congruence.
    + apply deriv_complete in H. exact (IH _ n Hm H).
Qed.

(** For a pattern that does not match the empty string, [findall] finds
    nothing exactly when no part of the text matches. *)
Lemma findall_nil_iff (r : regex) (s : str) :
  nullable r = false ->
  findall r s = [] <->
  forall pre m post : str, s = pre ++ m ++ post -> ~ Matches r m.
Proof.
  intros Hn. unfold findall. induction s as [|c s IH]; cbn [findall_from].
  - split; [|reflexivity]. intros _ pre m post H Hm.
    symmetry in H. apply app_eq_nil in H as [_ H]. apply app_eq_nil in H as [-> _].
    apply Matches_nil_nullable in Hm. congruence.
  - destruct (longest_prefix r (c :: s)) as [[|n]|] eqn:Hl.
    + apply longest_prefix_Some in Hl. apply Matches_nil_nullable in Hl. congruence.
    + split; [discriminate|]. intros H. exfalso.
      apply longest_prefix_Some in Hl.
      apply (H [] (take (S n) (c :: s)) (drop (S n) (c :: s))); [|exact Hl].
      rewrite take_drop. reflexivity.
    + rewrite IH. split.
      * intros H pre m post Hs Hm. destruct pre as [|c' pre]; simpl in Hs.
        -- apply (longest_prefix_None _ _ (length m) Hl).
           rewrite Hs, take_app_length. exact Hm.
        -- inversion Hs; subst. exact (H pre m post eq_refl Hm).
      * intros H pre m post Hs Hm. apply (H (c :: pre) m post); [|exact Hm].
        rewrite Hs. reflexivity.
Qed.

Lemma document_check_examples :
  check_duplicate_tags (lit "Contact</a></a>") = [lit "</a></a>"] /\
  check_duplicate_tags (lit "<a>x</a> <a>y</a>") = [] /\
  no_malformed_mailto (lit "mailto:  chat@mckenziestudios.ai") = false /\
  no_malformed_mailto (lit "mailto:chat@mckenziestudios.ai") = true.
Proof. repeat split; vm_compute; reflexivity. Qed.

End Search.

Section LineNumbers.

(** X18.  When the scanner reports the start tags at lines that do not
    decrease, the lines of the links do not decrease either. *)
Lemma line_numbers_in_order (events : list event) final :
  (forall i j tag1 attrs1 p1 tag2 attrs2 p2,
     i < j ->
     events !! i = Some (StartTag tag1 attrs1 p1) ->
     events !! j = Some (StartTag tag2 attrs2 p2) ->
     (p1.1 <= p2.1)%positive) ->
  feed init events = OK final ->
  forall i j l1 l2,
    i < j -> links final !! i = Some l1 -> links final !! j = Some l2 ->
    (line_num l1 <= line_num l2)%positive.
Proof.
  intros Hmono Hfeed i j l1 l2 Hij H1 H2.
  assert (Ht : traced events final).
  { change events with ([] ++ events). eapply traced_feed; [apply traced_init|exact Hfeed]. }
  assert (Hwf : wf final) by (eapply wf_feed; [apply wf_init|eauto]).
  destruct Ht as (orig & HF & Hinc & _).
  unfold links in H1, H2. rewrite list_lookup_fmap in H1, H2.
  destruct (email_links final !! i) as [ri|] eqn:Ei; [|discriminate].
  destruct (email_links final !! j) as [rj|] eqn:Ej; [|discriminate].
  simpl in H1, H2. inversion H1; inversion H2; subst l1 l2.
  pose proof (wf_increasing _ Hwf i j ri rj Hij Ei Ej) as Hr.
  pose proof (wf_links _ Hwf rj (list_elem_of_lookup_2 _ _ _ Ej)) as Hb.
  pose proof (Forall2_length _ _ _ HF) as Hlen.
  assert (Hoi : orig !! ri = Some (orig !!! ri)) by (apply list_lookup_lookup_total_lt; lia).
  assert (Hoj : orig !! rj = Some (orig !!! rj)) by (apply list_lookup_lookup_total_lt; lia).
  assert (Hsi : store final !! ri = Some (store final !!! ri))
    by (apply list_lookup_lookup_total_lt; lia).
  assert (Hsj : store final !! rj = Some (store final !!! rj))
    by (apply list_lookup_lookup_total_lt; lia).
  destruct (Forall2_lookup_lr _ _ _ _ _ _ HF Hoi Hsi) as (a1 & p1 & E1 & _ & _ & L1).
  destruct (Forall2_lookup_lr _ _ _ _ _ _ HF Hoj Hsj) as (a2 & p2 & E2 & _ & _ & L2).
  rewrite L1, L2. eapply Hmono; [|exact E1|exact E2].
  exact (Hinc ri rj _ _ Hr Hoi Hoj).
Qed.

End LineNumbers.

Section UniqueMatch.

Lemma Matches_Lit (t s : str) : Matches (Lit t) s <-> s = t.
Proof.
  revert s. induction t as [|c t IH]; intros s; simpl.
  - split; [intros H; inversion H; reflexivity | intros ->; constructor].
  - rewrite Matches_Seq. split.
    + intros (s1 & s2 & -> & H1 & H2). apply Matches_Chr in H1 as ->.
      apply IH in H2 as ->. reflexivity.
    + intros ->. exists [c], t. split; [reflexivity|].
      split; [apply Matches_Chr; reflexivity | apply IH; reflexivity].
Qed.

(** A run of characters of a class, followed by a character outside the
    class, can be read off a text in one way only. *)
Lemma run_then_other_unique (p : N -> bool) (w1 : str) : forall (w2 : str) c1 c2 (t1 t2 : str),
  Forall (fun c => p c = true) w1 -> Forall (fun c => p c = true) w2 ->
  p c1 = false -> p c2 = false ->
  w1 ++ c1 :: t1 = w2 ++ c2 :: t2 ->
  w1 = w2 /\ c1 = c2 /\ t1 = t2.
Proof.
  induction w1 as [|a w1 IH]; intros w2 c1 c2 t1 t2 H1 H2 Hc1 Hc2 E.
  - destruct w2 as [|b w2]; simpl in E.
    + inversion E; subst. auto.
    + inversion E; subst. inversion H2; subst. congruence.
  - destruct w2 as [|b w2]; simpl in E.
    + inversion E; subst. inversion H1; subst. congruence.
    + inversion E; subst. inversion H1; subst. inversion H2; subst.
      destruct (IH w2 c1 c2 t1 t2) as (-> & -> & ->); auto.
Qed.

(** From a given place of the document each of the two patterns matches
    at most one piece of text, so that the match [re.findall] reports there
    is the one [longest_prefix] finds. *)
Lemma duplicate_pattern_unique (m1 m2 x y : str) :
  Matches duplicate_pattern m1 -> Matches duplicate_pattern m2 ->
  m1 ++ x = m2 ++ y -> m1 = m2.
Proof.
  unfold duplicate_pattern. rewrite !Matches_Seq.
  intros (a1 & b1 & -> & Ha1 & Hb1) (a2 & b2 & -> & Ha2 & Hb2).
  apply Matches_Lit in Ha1 as ->. apply Matches_Lit in Ha2 as ->.
  apply Matches_Seq in Hb1 as (w1 & e1 & -> & Hw1 & He1).
  apply Matches_Seq in Hb2 as (w2 & e2 & -> & Hw2 & He2).
  apply Matches_Lit in He1 as ->. apply Matches_Lit in He2 as ->.
  apply Matches_Star_Class in Hw1, Hw2.
  rewrite <- !app_assoc. intros E. apply app_inv_head in E.
  change (lit "</a>") with (ord "<" :: lit "/a>") in E. simpl in E.
  apply run_then_other_unique with (p := isspace) in E as (-> & _ & _);
    auto; reflexivity.
Qed.

Lemma malformed_pattern_unique (m1 m2 x y : str) :
  Matches malformed_pattern m1 -> Matches malformed_pattern m2 ->
  m1 ++ x = m2 ++ y -> m1 = m2.
Proof.
  unfold malformed_pattern. rewrite !Matches_Seq.
  intros (a1 & b1 & -> & Ha1 & Hb1) (a2 & b2 & -> & Ha2 & Hb2).
  apply Matches_Lit in Ha1 as ->. apply Matches_Lit in Ha2 as ->.
  apply Matches_Seq in Hb1 as (w1 & e1 & -> & Hw1 & He1).
  apply Matches_Seq in Hb2 as (w2 & e2 & -> & Hw2 & He2).
  apply Matches_Class in He1 as (c1 & -> & Hc1). apply Matches_Class in He2 as (c2 & -> & Hc2).
  apply Matches_Plus_Class in Hw1 as [_ Hw1]. apply Matches_Plus_Class in Hw2 as [_ Hw2].
  apply negb_true_iff in Hc1, Hc2.
  rewrite <- !app_assoc. intros E. apply app_inv_head in E. simpl in E.
  apply run_then_other_unique with (p := isspace) in E as (-> & -> & _); auto.
Qed.

End UniqueMatch.

(** * Further properties of the extractor *)

Section Collecting.

Lemma handle_starttag_not_anchor self (tag : str) (attrs : list (str * option str)) getpos :
  tag <> lit "a" -> handle_starttag self tag attrs getpos = OK self.
Proof.
  intros H. unfold handle_starttag. rewrite bool_decide_eq_false_2 by exact H. reflexivity.
Qed.

(** X1.  A mailto anchor whose content holds no anchor tag is collected
    when its end tag arrives: the links grow by one dict with the href,
    the class and the line of the start tag, and as text the stripped
    pieces of data of the content, joined in order; no link stays open. *)
Theorem anchor_with_text_is_collected (events1 inside : list event) self
    (attrs : list (str * option str)) (getpos : positive * nat) (h : str) :
  feed init events1 = OK self ->
  dict attrs !! lit "href" = Some (Some h) ->
  startswith h (lit "mailto:") = true ->
  Forall not_anchor inside ->
  exists final,
    feed self (StartTag (lit "a") attrs getpos :: inside ++ [EndTag (lit "a")]) = OK final /\
    links final =
      links self ++
      [ {| href := h;
           class := default (Some []) (dict attrs !! lit "class");
           text := data_text inside;
           line_num := getpos.1 |} ] /\
    current_link final = None /\ in_link final = false.
Proof.
  intros H1 Hh Hm Hall.
  assert (Hwf : wf self) by (eapply wf_feed; [apply wf_init | eauto]).
  pose proof (handle_starttag_mailto self attrs getpos h Hh Hm) as E.
  set (fresh := {| href := h; class := default (Some []) (dict attrs !! lit "class");
                   text := []; line_num := getpos.1 |}).
  assert (Hr : store (opened self h attrs getpos) !! length (store self) = Some fresh).
  { simpl. apply list_lookup_middle. reflexivity. }
  pose proof (feed_inside_link inside (opened self h attrs getpos) (length (store self))
                fresh eq_refl eq_refl Hr Hall) as F.
  exists
    {| store := <[length (store self) := set_text (text fresh ++ data_text inside) fresh]>
                  (store (opened self h attrs getpos));
       email_links := email_links self ++ [length (store self)];
       current_link := None;
       in_link := false |}.
  split; [|split; [|split; reflexivity]].
  - cbn [feed handle]. rewrite E, feed_app, F. reflexivity.
  - unfold links. cbn [store email_links opened]. rewrite fmap_app. f_equal.
    + apply list_fmap_ext. intros i r Hi.
      pose proof (wf_links _ Hwf r (list_elem_of_lookup_2 _ _ _ Hi)) as Hlt.
      rewrite list_lookup_total_insert_ne by lia.
      apply lookup_total_app_l. exact Hlt.
    + simpl. f_equal. rewrite list_lookup_total_insert_eq; [reflexivity|].
      rewrite length_app. simpl. lia.
Qed.

Lemma anchor_with_text_is_collected_witness :
  exists final,
    feed init
      (StartTag (lit "a") [(lit "href", Some (lit "mailto:x@y.zz"))] (3%positive, 8)
       :: [Data (lit " x@"); StartTag (lit "b") [] (3%positive, 40); Data (lit "y.zz ")]
       ++ [EndTag (lit "a")]) = OK final /\
    links final =
      links init ++
      [ {| href := lit "mailto:x@y.zz";
           class := default (Some [])
                      (dict [(lit "href", Some (lit "mailto:x@y.zz"))] !! lit "class");
           text := data_text
                     [Data (lit " x@"); StartTag (lit "b") [] (3%positive, 40);
                      Data (lit "y.zz ")];
           line_num := (3%positive, 8).1 |} ] /\
    current_link final = None /\ in_link final = false.
Proof.
  refine (anchor_with_text_is_collected []
    [Data (lit " x@"); StartTag (lit "b") [] (3%positive, 40); Data (lit "y.zz ")]
    init [(lit "href", Some (lit "mailto:x@y.zz"))] (3%positive, 8) (lit "mailto:x@y.zz")
    eq_refl eq_refl eq_refl _).
  repeat constructor; vm_compute; discriminate.
Defined.

End Collecting.

Section Texts.

Lemma lstrip_split (s : str) :
  exists ws, s = ws ++ lstrip s /\ Forall (fun c => isspace c = true) ws.
Proof.
  induction s as [|c s (ws & E & Hws)]; [exists []; split; [reflexivity|constructor]|].
  simpl. destruct (isspace c) eqn:Hc.
  - exists (c :: ws). split; [simpl; f_equal; exact E | constructor; assumption].
  - exists []. split; [reflexivity|constructor].
Qed.

Lemma lstrip_head (s : str) c : head (lstrip s) = Some c -> isspace c = false.
Proof.
  induction s as [|a s IH]; simpl; [discriminate|].
  destruct (isspace a) eqn:Ha; [exact IH|]. simpl. intros H. inversion H; subst. exact Ha.
Qed.

Lemma last_rev_head (s : str) : last (rev s) = head s.
Proof.
  destruct s as [|c s]; [reflexivity|]. simpl. apply last_snoc.
Qed.

Lemma strip_no_edge_space (s : str) : no_edge_space (strip s).
Proof.
  unfold strip, rstrip. split; intros c H.
  - destruct (lstrip_split (rev (lstrip s))) as (ws & E & _).
    apply (f_equal (@rev N)) in E. rewrite rev_involutive, rev_app_distr in E.
    destruct (rev (lstrip (rev (lstrip s)))) as [|c' t] eqn:Hr; [discriminate|].
    simpl in H. inversion H; subst c'. apply (lstrip_head s). rewrite E. reflexivity.
  - rewrite last_rev_head in H. eapply lstrip_head; eauto.
Qed.

Lemma no_edge_space_nil : no_edge_space [].
Proof. split; intros c H; discriminate. Qed.

Lemma no_edge_space_app (s t : str) :
  no_edge_space s -> no_edge_space t -> no_edge_space (s ++ t).
Proof.
  intros [Hs1 Hs2] [Ht1 Ht2]. split; intros c H.
  - destruct s as [|a s]; [apply Ht1; exact H | apply Hs1; exact H].
  - destruct t as [|b t].
    + rewrite app_nil_r in H. apply Hs2; exact H.
    + apply Ht2. rewrite last_app in H. simpl in H.
      destruct (last (b :: t)) eqn:Hl; [exact H|].
      apply last_None in Hl. discriminate.
Qed.

Lemma texts_handle self e self' :
  Forall (fun rec => no_edge_space (text rec)) (store self) ->
  handle self e = OK self' ->
  Forall (fun rec => no_edge_space (text rec)) (store self').
Proof.
  intros HF H. destruct e as [tag attrs getpos|tag|data]; simpl in H.
  - destruct (handle_starttag_cases self tag attrs getpos) as [E|[E|(h & _ & _ & _ & E)]];
      rewrite E in H; inversion H; subst; clear H; [exact HF|].
    simpl. apply Forall_app. split; [exact HF|].
    constructor; [apply no_edge_space_nil | constructor].
  - inversion H; subst; clear H. unfold handle_endtag.
    destruct (bool_decide (tag = lit "a") && in_link self); [|exact HF].
    destruct (current_link self); exact HF.
  - inversion H; subst; clear H. unfold handle_data.
    destruct (in_link self); [|exact HF].
    destruct (current_link self) as [r|]; [|exact HF]. simpl.
    apply Forall_alter; [exact HF|]. intros rec _ Hrec. simpl.
    apply no_edge_space_app; [exact Hrec | apply strip_no_edge_space].
Qed.

Lemma texts_feed (events : list event) : forall self final,
  Forall (fun rec => no_edge_space (text rec)) (store self) ->
  feed self events = OK final ->
  Forall (fun rec => no_edge_space (text rec)) (store final).
Proof.
  induction events as [|e events IH]; simpl; intros self final HF H.
  - inversion H; subst. exact HF.
  - destruct (handle self e) as [self1|] eqn:He; [|discriminate].
    eapply IH; [|exact H]. eapply texts_handle; eauto.
Qed.

(** X2.  The text of a collected link never starts and never ends with
    white space, whatever the pieces of data it was gathered from. *)
Theorem link_text_has_no_edge_space (events : list event) final link :
  feed init events = OK final ->
  link ∈ links final ->
  no_edge_space (text link).
Proof.
  intros H Hin.
  assert (Hwf : wf final) by (eapply wf_feed; [apply wf_init | eauto]).
  assert (HF : Forall (fun rec => no_edge_space (text rec)) (store final)).
  { eapply texts_feed; [|exact H]. constructor. }
  unfold links in Hin. apply list_elem_of_fmap in Hin as (r & -> & Hr).
  rewrite Forall_forall in HF. apply HF.
  apply list_elem_of_lookup_total_2. apply (wf_links _ Hwf). exact Hr.
Qed.

Lemma link_text_has_no_edge_space_witness :
  no_edge_space (text {| href := lit "mailto:x@y.zz"; class := Some [];
                         text := lit "x@y.zz"; line_num := 1 |}).
Proof.
  refine (link_text_has_no_edge_space
    [ StartTag (lit "a") [(lit "href", Some (lit "mailto:x@y.zz"))] (1%positive, 0);
      Data (lit "  x@y.zz  "); EndTag (lit "a") ]
    _ _ eq_refl _).
  vm_compute. left.
Defined.

End Texts.

Section Failure.



End Failure.

Section Counting.

Lemma handle_starttag_plain self (tag : str) (attrs : list (str * option str)) getpos :
  is_mailto_start (StartTag tag attrs getpos) = false ->
  valueless_href (StartTag tag attrs getpos) = false ->
  handle_starttag self tag attrs getpos = OK self.
Proof.
  unfold is_mailto_start, valueless_href, handle_starttag.
  case_bool_decide as Htag; simpl; [|reflexivity].
  destruct (dict attrs !! lit "href") as [[h|]|] eqn:Hh; [| |reflexivity].
  - intros -> _. reflexivity.
  - rewrite bool_decide_eq_true_2 by reflexivity. discriminate.
Qed.

(** X4.  Outside a link, text, end tags and start tags other than those
    of mailto anchors change nothing: the parser is left as it was. *)
Theorem events_outside_links_are_ignored (events : list event) self :
  in_link self = false ->
  Forall (fun e => is_mailto_start e = false /\ valueless_href e = false) events ->
  feed self events = OK self.
Proof.
  intros Hin Hall. induction Hall as [|e events [Hm Hv] _ IH]; [reflexivity|].
  assert (E : handle self e = OK self).
  { destruct e as [tag attrs getpos|tag|data]; simpl.
    - apply handle_starttag_plain; assumption.
    - unfold handle_endtag. rewrite Hin, andb_false_r. reflexivity.
    - unfold handle_data. rewrite Hin. reflexivity. }
  simpl. rewrite E. exact IH.
Qed.

Lemma events_outside_links_are_ignored_witness :
  feed init
    [ Data (lit "Contact us"); EndTag (lit "a");
      StartTag (lit "a") [(lit "href", Some (lit "https://x.yy"))] (2%positive, 0);
      StartTag (lit "p") [(lit "href", None)] (3%positive, 0) ]
  = OK init.
Proof.
  refine (events_outside_links_are_ignored _ init eq_refl _).
  repeat constructor.
Defined.

(** The dicts created and the links collected, counted along the events. *)
Lemma counts_handle self e self' :
  handle self e = OK self' ->
  length (store self') = length (store self) + (if is_mailto_start e then 1 else 0) /\
  length (email_links self') <= length (email_links self) + (if is_anchor_end e then 1 else 0).
Proof.
  intros H. destruct e as [tag attrs getpos|tag|data]; simpl in H.
  - destruct (handle_starttag_cases self tag attrs getpos)
      as [E|[E|(h & -> & Hh & Hm & E)]].
    + unfold is_mailto_start. rewrite E in H. inversion H; subst self'.
      unfold handle_starttag in E. case_bool_decide as Htag; simpl; [|lia].
      destruct (dict attrs !! lit "href") as [[h|]|]; [|discriminate|simpl; lia].
      destruct (startswith h (lit "mailto:")) eqn:Hm; [|simpl; lia].
      inversion E as [E']. apply (f_equal (fun p => length (store p))) in E'.
      simpl in E'. rewrite length_app in E'. simpl in E'. lia.
    + rewrite E in H. discriminate.
    + rewrite E in H. inversion H; subst self'.
      assert (Hs : is_mailto_start (StartTag (lit "a") attrs getpos) = true).
      { unfold is_mailto_start. rewrite bool_decide_eq_true_2 by reflexivity.
        rewrite Hh. exact Hm. }
      rewrite Hs. cbn [store email_links is_anchor_end]. rewrite length_app. simpl. lia.
  - inversion H; subst self'. unfold handle_endtag. simpl.
    case_bool_decide as Htag; simpl; [|lia].
    destruct (in_link self); simpl; [|lia].
    destruct (current_link self); simpl; rewrite ?length_app; simpl; lia.
  - inversion H; subst self'. unfold handle_data. simpl.
    destruct (in_link self); [|lia].
    destruct (current_link self); simpl; rewrite ?length_alter; lia.
Qed.

Lemma counts_feed (events : list event) : forall self final,
  feed self events = OK final ->
  length (store final) = length (store self) + length (filter (fun e => is_mailto_start e = true) events) /\
  length (email_links final)
    <= length (email_links self) + length (filter (fun e => is_anchor_end e = true) events).
Proof.
  induction events as [|e events IH]; cbn [feed]; intros self final H.
  - inversion H; subst. rewrite !filter_nil. simpl. lia.
  - destruct (handle self e) as [self1|] eqn:He; [|discriminate].
    destruct (counts_handle _ _ _ He) as [C1 C2].
    destruct (IH _ _ H) as [D1 D2]. rewrite !filter_cons.
    destruct (is_mailto_start e); destruct (is_anchor_end e);
      repeat case_decide; try congruence; simpl; lia.
Qed.

Lemma increasing_bounded_length (l : list nat) : forall n,
  increasing l -> (forall x, x ∈ l -> x < n) -> length l <= n.
Proof.
  induction l as [|a l IH] using rev_ind; intros n Hinc Hb; [simpl; lia|].
  rewrite length_app. simpl.
  assert (Ha : a < n) by (apply Hb; apply elem_of_app; right; left).
  assert (Hl : length l <= a); [|lia].
  apply IH.
  - intros i j x y Hij Hi Hj. apply (Hinc i j x y Hij); apply lookup_app_l_Some; assumption.
  - intros x Hx. apply list_elem_of_lookup_1 in Hx as [i Hi].
    apply (Hinc i (length l) x a).
    + apply lookup_lt_Some in Hi. exact Hi.
    + apply lookup_app_l_Some. exact Hi.
    + apply list_lookup_middle. reflexivity.
Qed.

(** X5.  The links collected are at most as many as the start tags of
    mailto anchors in the document, and at most as many as its end tags of
    anchors. *)
Theorem links_are_bounded_by_tags (events : list event) final :
  feed init events = OK final ->
  length (links final) <= length (filter (fun e => is_mailto_start e = true) events) /\
  length (links final) <= length (filter (fun e => is_anchor_end e = true) events).
Proof.
  intros H.
  assert (Hwf : wf final) by (eapply wf_feed; [apply wf_init | eauto]).
  destruct (counts_feed _ _ _ H) as [C1 C2]. simpl in C1, C2.
  unfold links. rewrite length_fmap. split; [|exact C2].
  rewrite <- C1. apply increasing_bounded_length.
  - apply (wf_increasing _ Hwf).
  - apply (wf_links _ Hwf).
Qed.

Lemma links_are_bounded_by_tags_witness :
  match feed init
          [ StartTag (lit "a") [(lit "href", Some (lit "mailto:a@b.cc"))] (1%positive, 0);
            StartTag (lit "a") [(lit "href", Some (lit "mailto:c@d.ee"))] (2%positive, 0);
            EndTag (lit "a"); EndTag (lit "a"); EndTag (lit "a") ] with
  | OK final => length (links final) <= 2 /\ length (links final) <= 3
  | Raise _ => False
  end.
Proof.
  exact (links_are_bounded_by_tags
    [ StartTag (lit "a") [(lit "href", Some (lit "mailto:a@b.cc"))] (1%positive, 0);
      StartTag (lit "a") [(lit "href", Some (lit "mailto:c@d.ee"))] (2%positive, 0);
      EndTag (lit "a"); EndTag (lit "a"); EndTag (lit "a") ]
    _ eq_refl).
Defined.

End Counting.

Section Reachable.

Lemma increasing_NoDup (l : list nat) : increasing l -> NoDup l.
Proof.
  intros Hinc. apply NoDup_alt. intros i j x Hi Hj.
  destruct (Nat.lt_trichotomy i j) as [Hlt|[Heq|Hgt]]; [|exact Heq|].
  - pose proof (Hinc i j x x Hlt Hi Hj). lia.
  - pose proof (Hinc j i x x Hgt Hj Hi). lia.
Qed.

(** X6.  In every state the extractor reaches, [in_link] is set exactly
    when [current_link] is; no dict is among [email_links] twice; and the
    dict of the open link, still being written to, is not yet among
    them. *)
Theorem reachable_parser_state (events : list event) self :
  feed init events = OK self ->
  (in_link self = true <-> is_Some (current_link self)) /\
  NoDup (email_links self) /\
  (forall r, r ∈ email_links self -> is_Some (store self !! r)) /\
  (forall r, current_link self = Some r ->
     is_Some (store self !! r) /\ (r ∉ email_links self)).
Proof.
  intros H.
  assert (Hwf : wf self) by (eapply wf_feed; [apply wf_init | eauto]).
  destruct Hwf as [H1 H2 H3 H4].
  split; [exact H4|]. split; [apply increasing_NoDup; exact H3|]. split.
  - intros r Hr. apply lookup_lt_is_Some. apply H1. exact Hr.
  - intros r Hr. destruct (H2 r Hr) as [Hlt Hbelow]. split.
    + apply lookup_lt_is_Some. exact Hlt.
    + intros Hin. specialize (Hbelow r Hin). lia.
Qed.

Lemma reachable_parser_state_witness :
  match feed init
          [ StartTag (lit "a") [(lit "href", Some (lit "mailto:a@b.cc"))] (1%positive, 0);
            Data (lit "a@b.cc"); EndTag (lit "a");
            StartTag (lit "a") [(lit "href", Some (lit "mailto:c@d.ee"))] (2%positive, 0) ] with
  | OK self => NoDup (email_links self)
  | Raise _ => False
  end.
Proof.
  exact (proj1 (proj2 (reachable_parser_state
    [ StartTag (lit "a") [(lit "href", Some (lit "mailto:a@b.cc"))] (1%positive, 0);
      Data (lit "a@b.cc"); EndTag (lit "a");
      StartTag (lit "a") [(lit "href", Some (lit "mailto:c@d.ee"))] (2%positive, 0) ]
    _ eq_refl))).
Defined.

End Reachable.

(** * Further properties of the checks *)

Section DocumentChecks.

Lemma findall_from_elem (r : regex) (s : str) : forall (skip : nat) (m : str),
  m ∈ findall_from r skip s ->
  Matches r m /\ exists pre post : str, s = pre ++ m ++ post.
Proof.
  induction s as [|c s IH]; intros skip m; cbn [findall_from].
  - intros H. inversion H.
  - assert (Hrest : forall k, m ∈ findall_from r k s ->
              Matches r m /\ exists pre post : str, c :: s = pre ++ m ++ post).
    { intros k Hk. destruct (IH k m Hk) as [Hm (pre & post & ->)].
      split; [exact Hm|]. exists (c :: pre), post. reflexivity. }
    destruct skip as [|k]; [|apply Hrest].
    destruct (longest_prefix r (c :: s)) as [[|n]|] eqn:Hl; try apply Hrest.
    intros H. apply elem_of_cons in H as [->|H]; [|eapply Hrest; exact H].
    split; [apply longest_prefix_Some; exact Hl|].
    exists [], (drop (S n) (c :: s)). simpl app at 1. rewrite take_drop. reflexivity.
Qed.

Lemma duplicate_pattern_shape (m : str) :
  Matches duplicate_pattern m <->
  exists ws : str, m = lit "</a>" ++ ws ++ lit "</a>" /\ Forall (fun c => isspace c = true) ws.
Proof.
  unfold duplicate_pattern. rewrite Matches_Seq. split.
  - intros (a & b & -> & Ha & Hb). apply Matches_Lit in Ha as ->.
    apply Matches_Seq in Hb as (ws & e & -> & Hws & He).
    apply Matches_Lit in He as ->. apply Matches_Star_Class in Hws. eauto.
  - intros (ws & -> & Hws). exists (lit "</a>"), (ws ++ lit "</a>").
    split; [reflexivity|]. split; [apply Matches_Lit; reflexivity|].
    apply Matches_Seq. exists ws, (lit "</a>"). split; [reflexivity|].
    split; [apply Matches_Star_Class; exact Hws | apply Matches_Lit; reflexivity].
Qed.

Lemma malformed_pattern_shape (m : str) :
  Matches malformed_pattern m <->
  exists (ws : str) (c : N),
    m = lit "mailto:" ++ ws ++ [c] /\ ws <> [] /\
    Forall (fun c => isspace c = true) ws /\ isspace c = false.
Proof.
  unfold malformed_pattern. rewrite Matches_Seq. split.
  - intros (a & b & -> & Ha & Hb). apply Matches_Lit in Ha as ->.
    apply Matches_Seq in Hb as (ws & e & -> & Hws & He).
    apply Matches_Plus_Class in Hws as [Hne Hws].
    apply Matches_Class in He as (c & -> & Hc). apply negb_true_iff in Hc.
    exists ws, c. auto.
  - intros (ws & c & -> & Hne & Hws & Hc). exists (lit "mailto:"), (ws ++ [c]).
    split; [reflexivity|]. split; [apply Matches_Lit; reflexivity|].
    apply Matches_Seq. exists ws, [c]. split; [reflexivity|].
    split; [apply Matches_Plus_Class; auto|].
    apply Matches_Class. exists c. split; [reflexivity|]. apply negb_true_iff. exact Hc.
Qed.

(** X7.  [check_duplicate_tags] finds something exactly when the document
    holds two [</a>] with nothing but white space between them, and every
    piece of text it returns is such a pair, taken from the document. *)
Theorem check_duplicate_tags_finds_adjacent_end_tags (html_content : str) :
  (check_duplicate_tags html_content <> [] <->
   exists pre ws post : str,
     html_content = pre ++ (lit "</a>" ++ ws ++ lit "</a>") ++ post /\
     Forall (fun c => isspace c = true) ws) /\
  (forall m : str, m ∈ check_duplicate_tags html_content ->
     exists pre ws post : str,
       html_content = pre ++ m ++ post /\
       m = lit "</a>" ++ ws ++ lit "</a>" /\ Forall (fun c => isspace c = true) ws).
Proof.
  assert (Helem : forall m : str, m ∈ check_duplicate_tags html_content ->
    exists pre ws post : str,
      html_content = pre ++ m ++ post /\
      m = lit "</a>" ++ ws ++ lit "</a>" /\ Forall (fun c => isspace c = true) ws).
  { intros m Hm. apply findall_from_elem in Hm as [Hm (pre & post & E)].
    apply duplicate_pattern_shape in Hm as (ws & -> & Hws).
    exists pre, ws, post. auto. }
  split; [|exact Helem]. split.
  - intros Hne. destruct (check_duplicate_tags html_content) as [|m ms] eqn:E; [congruence|].
    destruct (Helem m) as (pre & ws & post & E1 & -> & Hws); [left|].
    exists pre, ws, post. auto.
  - intros (pre & ws & post & E & Hws) Hnil. unfold check_duplicate_tags in Hnil.
    apply (proj1 (findall_nil_iff duplicate_pattern html_content eq_refl) Hnil _ _ _ E).
    apply duplicate_pattern_shape. eauto.
Qed.

(** X8.  The malformed-mailto search of [main] finds something exactly
    when the document holds [mailto:] followed by white space and then by
    a character that is not white space. *)
Theorem malformed_mailto_found_iff (html_content : str) :
  findall malformed_pattern html_content <> [] <->
  exists (pre ws : str) (c : N) (post : str),
    html_content = pre ++ (lit "mailto:" ++ ws ++ [c]) ++ post /\
    ws <> [] /\ Forall (fun c => isspace c = true) ws /\ isspace c = false.
Proof.
  split.
  - intros Hne. destruct (findall malformed_pattern html_content) as [|m ms] eqn:E; [congruence|].
    assert (Hm : m ∈ findall malformed_pattern html_content) by (rewrite E; left).
    apply findall_from_elem in Hm as [Hm (pre & post & E1)].
    apply malformed_pattern_shape in Hm as (ws & c & -> & H).
    exists pre, ws, c, post. auto.
  - intros (pre & ws & c & post & E & H) Hnil.
    apply (proj1 (findall_nil_iff malformed_pattern html_content eq_refl) Hnil _ _ _ E).
    apply malformed_pattern_shape. eauto.
Qed.

End DocumentChecks.

Section ValidCandidates.

Lemma after_first_absent (sep : N) (l rest : str) :
  Forall (fun c => c <> sep) l -> after_first sep (l ++ sep :: rest) = rest.
Proof.
  induction 1 as [|c l Hc _ IH]; simpl.
  - rewrite N.eqb_refl. reflexivity.
  - apply N.eqb_neq in Hc. rewrite Hc. exact IH.
Qed.

Lemma before_first_absent (sep : N) (s : str) :
  Forall (fun c => c <> sep) s -> before_first sep s = s.
Proof.
  induction 1 as [|c s Hc _ IH]; simpl; [reflexivity|].
  apply N.eqb_neq in Hc. rewrite Hc, IH. reflexivity.
Qed.

Lemma class_excludes (p : N -> bool) (sep : N) (s : str) :
  p sep = false -> Forall (fun c => p c = true) s -> Forall (fun c => c <> sep) s.
Proof.
  intros Hp H. eapply Forall_impl; [exact H|]. intros c Hc ->. congruence.
Qed.

Lemma validate_email_format_parts (email : str) :
  validate_email_format email = true ->
  exists l rest : str,
    email = l ++ ord "@" :: rest /\
    Forall (fun c => c <> ord "@") l /\ Forall (fun c => c <> ord "@") rest.
Proof.
  unfold validate_email_format. rewrite match_caret_dollar_iff.
  assert (Hdot : ord "." <> ord "@") by (vm_compute; discriminate).
  assert (Hnl : newline <> ord "@") by (vm_compute; discriminate).
  intros [H|(s & -> & H)];
    apply email_pattern_shape in H as (l & d & t & -> & _ & Hl & _ & Hd & _ & Ht);
    apply (class_excludes local_char (ord "@")) in Hl; try reflexivity;
    apply (class_excludes domain_char (ord "@")) in Hd; try reflexivity;
    apply (class_excludes letter (ord "@")) in Ht; try reflexivity.
  - exists l, (d ++ ord "." :: t). split; [reflexivity|]. split; [exact Hl|].
    apply Forall_app. split; [exact Hd|]. constructor; assumption.
  - exists l, (d ++ ord "." :: t ++ [newline]). split.
    + rewrite <- app_assoc. simpl. rewrite <- app_assoc. reflexivity.
    + split; [exact Hl|]. apply Forall_app. split; [exact Hd|].
      constructor; [exact Hdot|]. apply Forall_app. split; [exact Ht|].
      constructor; [exact Hnl|constructor].
Qed.

(** X9.  For a candidate email that passes the format check, the domain
    of the domain check is everything after the [@], the only one there
    is: on the links that pass, the domain is not cut short. *)
Theorem valid_email_domain (email : str) :
  validate_email_format email = true ->
  domain_of email = after_first (ord "@") email /\
  contains_char (ord "@") (domain_of email) = false /\
  contains_char (ord "@") email = true.
Proof.
  intros H. apply validate_email_format_parts in H
    as (l & rest & -> & Hl & Hrest).
  assert (E : domain_of (l ++ ord "@" :: rest) = rest).
  { unfold domain_of.
    rewrite (proj1 (split_before_after (ord "@") (l ++ ord "@" :: rest))).
    rewrite after_first_absent by exact Hl. apply before_first_absent. exact Hrest. }
  rewrite E, after_first_absent by exact Hl. split; [reflexivity|]. split.
  - unfold contains_char. apply bool_decide_eq_false_2. intros Hin.
    rewrite Forall_forall in Hrest. exact (Hrest _ Hin eq_refl).
  - unfold contains_char. apply bool_decide_eq_true_2.
    apply elem_of_app. right. left.
Qed.

Lemma valid_email_domain_witness :
  domain_of (lit "chat@mckenziestudios.ai") = after_first (ord "@") (lit "chat@mckenziestudios.ai") /\
  contains_char (ord "@") (domain_of (lit "chat@mckenziestudios.ai")) = false /\
  contains_char (ord "@") (lit "chat@mckenziestudios.ai") = true.
Proof.
  exact (valid_email_domain (lit "chat@mckenziestudios.ai") eq_refl).
Defined.

End ValidCandidates.

(** * Further properties of the report *)

Section ReportLines.

Variable str_of_list : list str -> str.

Lemma check_links_lines links : forall i b,
  (check_links i links b).1 =
  concat (imap (fun k link => (check_link (i + k) link true).1) links).
Proof.
  induction links as [|link links IH]; intros i b; [reflexivity|].
  rewrite check_links_cons. cbn [fst imap concat]. rewrite Nat.add_0_r. f_equal.
  rewrite IH. f_equal. apply imap_ext. intros k l _. simpl.
  rewrite Nat.add_succ_r. reflexivity.
Qed.

(** X10.  The report starts with the number of links and then holds one
    block of lines per link, in the order of the links and numbered from
    1; the lines of a block are those the link would get on its own,
    whether or not earlier checks failed. *)
Theorem every_link_is_reported (html_content : str) (links : list LinkRecord) :
  exists tail : list str,
    (report str_of_list html_content links).1 =
      [ 128231%N :: lit " Found " ++ str_of_nat (length links) ++ lit " email link(s)"; [] ]
      ++ concat (imap (fun k link => (check_link (S k) link true).1) links) ++ tail /\
    forall (k : nat) (link : LinkRecord) (b : bool),
      In (lit "Link #" ++ str_of_nat (S k)) (check_link (S k) link b).1 /\
      In (lit "Href: " ++ href link) (check_link (S k) link b).1 /\
      In (lit "Link Text: " ++ text link) (check_link (S k) link b).1.
Proof.
  unfold report.
  pose proof (check_links_lines links 1 true) as E.
  destruct (check_links 1 links true) as [out b]. cbn [fst] in E. subst out.
  destruct (check_duplicate_tags html_content);
    destruct (findall malformed_pattern html_content);
    (eexists; split; [cbn [fst]; reflexivity|];
     intros k link b'; unfold check_link; cbn [fst];
     split; [left; reflexivity|]; split;
     [do 3 right; left; reflexivity | do 5 right; left; reflexivity]).
Qed.

Lemma check_link_kinds i link b :
  existsb is_fail_line (check_link i link b).1 = negb (format_ok link && text_ok link) /\
  existsb (first_is 10003) (check_link i link b).1 = false /\
  existsb (first_is 10007) (check_link i link b).1 = false /\
  existsb is_indented_line (check_link i link b).1 = negb (text_ok link).
Proof.
  unfold check_link, format_ok, text_ok. cbn [fst].
  destruct (validate_email_format (email_of link)),
    (bool_decide (text link = email_of link)),
    (bool_class (class link)), (is_mckenzie (email_of link));
    repeat split; reflexivity.
Qed.

Lemma check_links_kinds links : forall i b,
  existsb is_fail_line (check_links i links b).1
    = negb (forallb (fun l => format_ok l && text_ok l) links) /\
  existsb (first_is 10003) (check_links i links b).1 = false /\
  existsb (first_is 10007) (check_links i links b).1 = false.
Proof.
  induction links as [|link links IH]; intros i b; [repeat split; reflexivity|].
  rewrite check_links_cons. cbn [fst forallb]. rewrite !existsb_app.
  destruct (check_link_kinds i link b) as (K1 & K2 & K3 & _).
  destruct (IH (S i) (check_link i link b).2) as (L1 & L2 & L3).
  rewrite K1, K2, K3, L1, L2, L3. repeat split; try reflexivity.
  destruct (format_ok link), (text_ok link),
    (forallb (fun l => format_ok l && text_ok l) links); reflexivity.
Qed.

Lemma report_kinds html_content links :
  existsb is_fail_line (report str_of_list html_content links).1
    = negb (report str_of_list html_content links).2 /\
  existsb (first_is 10003) (report str_of_list html_content links).1
    = (report str_of_list html_content links).2 /\
  existsb (first_is 10007) (report str_of_list html_content links).1
    = negb (report str_of_list html_content links).2 /\
  (In all_passed_line (report str_of_list html_content links).1 \/
   In some_failed_line (report str_of_list html_content links).1).
Proof.
  unfold report.
  destruct (check_links_kinds links 1 true) as (L1 & L2 & L3).
  pose proof (check_links_flag links 1 true) as F.
  destruct (check_links 1 links true) as [out b]. cbn [fst snd] in *.
  simpl in F. rewrite <- F in L1. clear F.
  destruct (check_duplicate_tags html_content);
    destruct (findall malformed_pattern html_content);
    cbn [fst snd app existsb]; rewrite ?existsb_app, ?L1, ?L2, ?L3; cbn [existsb];
    destruct b; simpl; repeat split; try reflexivity;
    first [ left; do 2 right; apply in_or_app; right; do 6 right; left; reflexivity
          | right; do 2 right; apply in_or_app; right; do 6 right; left; reflexivity ].
Qed.


(** X12.  The line that shows the expected and the actual text is
    printed for a link exactly when its text differs from its candidate
    email. *)
Theorem expected_line_iff_mismatch (i : nat) (link : LinkRecord) (b : bool) :
  In (lit "           Expected: " ++ email_of link ++ lit ", Got: " ++ text link)
     (check_link i link b).1
  <-> text link <> email_of link.
Proof.
  destruct (check_link_kinds i link b) as (_ & _ & _ & K). unfold text_ok in K. split.
  - intros H Heq. rewrite bool_decide_eq_true_2 in K by exact Heq. cbn [negb] in K.
    assert (existsb is_indented_line (check_link i link b).1 = true); [|congruence].
    apply existsb_exists. eexists. split; [exact H|reflexivity].
  - intros Hne. unfold check_link. cbn [fst].
    rewrite bool_decide_eq_false_2 by exact Hne. simpl.
    do 9 right. left. reflexivity.
Qed.

End ReportLines.

Section Acceptance.

(** X13.  A document whose links all have an href made of [mailto:] and
    an address of the stated shape, with that address as text, and which
    holds neither adjacent end tags nor a malformed mailto, passes: [main]
    returns with [all_tests_passed] set, and prints the line of
    success. *)
Theorem correct_document_passes (str_of_list : list str -> str) (html_content : str)
    (events : list event) parser :
  feed init events = OK parser ->
  Forall (fun link => exists e : str,
            href link = lit "mailto:" ++ e /\ contains (lit "mailto:") e = false /\
            email_shape e /\ text link = e) (links parser) ->
  check_duplicate_tags html_content = [] ->
  findall malformed_pattern html_content = [] ->
  exists out,
    main str_of_list html_content events = OK (out, true) /\ In all_passed_line out.
Proof.
  intros Hfeed Hall Hdup Hmal.
  assert (F : (report str_of_list html_content (links parser)).2 = true).
  { rewrite report_flag. unfold no_duplicate_tags, no_malformed_mailto.
    rewrite Hdup, Hmal. rewrite !andb_true_r. apply forallb_forall.
    intros link Hin. rewrite Forall_forall in Hall.
    apply list_elem_of_In in Hin.
    destruct (Hall link Hin) as (e & Hh & Hc & Hs & Ht).
    assert (E : email_of link = e).
    { unfold email_of. rewrite Hh, remove_all_prefix by discriminate.
      apply remove_all_absent. exact Hc. }
    unfold format_ok, text_ok. rewrite E. apply andb_true_iff. split.
    - unfold validate_email_format. apply match_caret_dollar_iff. left.
      apply email_pattern_shape. exact Hs.
    - apply bool_decide_eq_true_2. exact Ht. }
  destruct (report_kinds str_of_list html_content (links parser)) as (_ & K2 & K3 & K4).
  unfold main. rewrite Hfeed.
  destruct (report str_of_list html_content (links parser)) as [out b] eqn:R.
  cbn [fst snd] in *. subst b. eexists. split; [reflexivity|].
  apply in_or_app. right. destruct K4 as [K4|K4]; [exact K4|]. exfalso.
  simpl in K3. assert (existsb (first_is 10007) out = true); [|congruence].
  apply existsb_exists. exists some_failed_line. auto.
Qed.

Lemma correct_document_passes_witness :
  exists out,
    main (fun _ => []) (lit "<a href=mailto:chat@mckenziestudios.ai>chat@mckenziestudios.ai</a>")
      [ StartTag (lit "a") [(lit "href", Some (lit "mailto:chat@mckenziestudios.ai"))]
          (1%positive, 0);
        Data (lit "chat@mckenziestudios.ai"); EndTag (lit "a") ]
    = OK (out, true) /\ In all_passed_line out.
Proof.
  refine (correct_document_passes (fun _ => [])
    (lit "<a href=mailto:chat@mckenziestudios.ai>chat@mckenziestudios.ai</a>")
    [ StartTag (lit "a") [(lit "href", Some (lit "mailto:chat@mckenziestudios.ai"))]
        (1%positive, 0);
      Data (lit "chat@mckenziestudios.ai"); EndTag (lit "a") ]
    _ eq_refl _ eq_refl eq_refl).
  constructor; [|constructor].
  exists (lit "chat@mckenziestudios.ai"). split; [reflexivity|].
  split; [vm_compute; reflexivity|]. split; [|reflexivity].
  apply email_shape_decide. vm_compute. reflexivity.
Defined.

End Acceptance.

Section WhiteSpace.

Lemma lstrip_spaces (s : str) : Forall (fun c => isspace c = true) s -> lstrip s = [].
Proof.
  induction 1 as [|c s Hc _ IH]; [reflexivity|]. simpl. rewrite Hc. exact IH.
Qed.

Lemma strip_spaces (s : str) : Forall (fun c => isspace c = true) s -> strip s = [].
Proof.
  intros H. unfold strip, rstrip. rewrite (lstrip_spaces s H). reflexivity.
Qed.

(** X14.  Data made of white space only, such as the line breaks and the
    indentation between the tags of a link, leaves the parser as it is,
    inside a link as well as outside. *)
Theorem whitespace_data_is_ignored self (data : str) :
  Forall (fun c => isspace c = true) data ->
  handle_data self data = self.
Proof.
  intros H. unfold handle_data. rewrite (strip_spaces data H).
  destruct (in_link self) eqn:Hin; [|reflexivity].
  destruct (current_link self) as [r|] eqn:Hc; [|reflexivity].
  rewrite list_alter_id.
  - destruct self; simpl in *; subst; reflexivity.
  - intros rec. rewrite app_nil_r. apply set_text_id.
Qed.

Lemma whitespace_data_is_ignored_witness :
  handle_data
    {| store := [ {| href := lit "mailto:x@y.zz"; class := Some []; text := lit "x@";
                     line_num := 1 |} ];
       email_links := []; current_link := Some 0; in_link := true |}
    [newline; ord " "; ord " "; 9%N]
  = {| store := [ {| href := lit "mailto:x@y.zz"; class := Some []; text := lit "x@";
                     line_num := 1 |} ];
       email_links := []; current_link := Some 0; in_link := true |}.
Proof.
  refine (whitespace_data_is_ignored _ [newline; ord " "; ord " "; 9%N] _).
  repeat constructor.
Defined.

End WhiteSpace.

Section Occurrences.

(** The matches of [findall] are pieces of the text that follow one
    another without overlapping: the text is a gap, a match, a gap, a
    match and so on, and a rest. *)
Lemma findall_from_disjoint (r : regex) (s : str) : forall skip : nat,
  exists (gaps : list str) (rest : str),
    length gaps = length (findall_from r skip s) /\
    drop skip s = concat (zip_with app gaps (findall_from r skip s)) ++ rest.
Proof.
  induction s as [|c s IH]; intros skip.
  - exists [], []. split; [reflexivity|]. destruct skip; reflexivity.
  - cbn [findall_from]. destruct skip as [|k]; [|apply IH].
    assert (Hnone : exists (gaps : list str) (rest : str),
              length gaps = length (findall_from r 0 s) /\
              drop 0 (c :: s) = concat (zip_with app gaps (findall_from r 0 s)) ++ rest).
    { destruct (IH 0) as (gaps & rest & Hlen & E). simpl in E.
      destruct (findall_from r 0 s) as [|m ms].
      - destruct gaps; [|discriminate]. exists [], (c :: rest). simpl in *.
        split; [reflexivity|]. f_equal. exact E.
      - destruct gaps as [|g gaps]; [discriminate|]. exists ((c :: g) :: gaps), rest.
        split; [exact Hlen|]. simpl in *. f_equal. exact E. }
    destruct (longest_prefix r (c :: s)) as [[|n]|]; try exact Hnone.
    destruct (IH n) as (gaps & rest & Hlen & E).
    exists ([] :: gaps), rest. split; [simpl; rewrite Hlen; reflexivity|].
    cbn [zip_with concat app drop]. rewrite <- app_assoc, <- E.
    change (take (S n) (c :: s)) with (c :: take n s). simpl. rewrite take_drop. reflexivity.
Qed.

(** X15.  The duplicates [check_duplicate_tags] returns lie in the
    document one after the other without overlapping: the document is made
    of them, in the order returned, with text in between, so that their
    number counts separate places of the document. *)
Theorem check_duplicate_tags_disjoint (html_content : str) :
  exists (gaps : list str) (rest : str),
    length gaps = length (check_duplicate_tags html_content) /\
    html_content = concat (zip_with app gaps (check_duplicate_tags html_content)) ++ rest.
Proof.
  exact (findall_from_disjoint duplicate_pattern html_content 0).
Qed.

End Occurrences.

Section MoreWitnesses.

Lemma email_of_single_prefix_witness :
  email_of {| href := lit "mailto:chat@mckenziestudios.ai"; class := Some [];
              text := []; line_num := 1 |} = lit "chat@mckenziestudios.ai" /\
  email_of {| href := lit "mailto:chat@mckenziestudios.ai"; class := Some [];
              text := []; line_num := 1 |}
  = after_prefix (lit "mailto:")
      (href {| href := lit "mailto:chat@mckenziestudios.ai"; class := Some [];
               text := []; line_num := 1 |}).
Proof.
  exact (email_of_single_prefix
    {| href := lit "mailto:chat@mckenziestudios.ai"; class := Some [];
       text := []; line_num := 1 |}
    (lit "chat@mckenziestudios.ai") eq_refl eq_refl).
Defined.

Lemma line_numbers_in_order_witness :
  (line_num {| href := lit "mailto:a@b.cc"; class := Some []; text := []; line_num := 3 |}
   <= line_num {| href := lit "mailto:c@d.ee"; class := Some []; text := []; line_num := 5 |})%positive.
Proof.
  refine (line_numbers_in_order
    [ StartTag (lit "a") [(lit "href", Some (lit "mailto:a@b.cc"))] (3%positive, 0);
      EndTag (lit "a");
      StartTag (lit "a") [(lit "href", Some (lit "mailto:c@d.ee"))] (5%positive, 0);
      EndTag (lit "a") ]
    _ _ eq_refl 0 1 _ _ (Nat.lt_0_succ 0) eq_refl eq_refl).
  intros i j tag1 attrs1 p1 tag2 attrs2 p2 Hij H1 H2.
  destruct i as [|[|[|[|i]]]]; simpl in H1; try discriminate;
    destruct j as [|[|[|[|j]]]]; simpl in H2; try discriminate; try lia;
    inversion H1; inversion H2; subst; simpl; lia.
Defined.

End MoreWitnesses.
